(** * A workflow-graph engine (app/engine.py): model and verification

    The engine keeps a table of graphs and a table of runs.  A run walks a
    graph from its start node: each node's logic receives the run's state
    (a Python dict, passed by reference) and may name its successor; when it
    does not, the graph's static edge is followed.

    Python objects that node logic can reach are kept in an explicit heap:
    the state dict, the values it holds, and the dicts that [dict(...)]
    allocates as snapshots.  A value is an atom or a reference into that
    heap, so two dicts may hold the same list. *)

From Stdlib Require Import ZArith QArith_base.
From stdpp Require Import gmap strings list fin_maps relations.

Local Open Scope string_scope.
Local Open Scope list_scope.
Local Open Scope Z_scope.

(** ** Values and the heap *)

Definition loc := nat.

Inductive value :=
  | VNone
  | VBool (b : bool)
  | VInt (z : Z)
  | VStr (s : string)
  | VRef (l : loc).

Inductive obj :=
  | ODict (d : gmap string value)
  | OList (xs : list value).

Abbreviation Heap := (gmap loc obj).

(** The references an object holds. *)
Definition value_refs (v : value) : list loc :=
  match v with VRef l => [l] | _ => [] end.

Definition obj_values (o : obj) : list value :=
  match o with
  | ODict d => (map_to_list d).*2
  | OList xs => xs
  end.

Definition obj_refs (o : obj) : list loc :=
  obj_values o ≫= value_refs.

(** A location strictly above every allocated location and every location
    referenced from an allocated object: a new object's identity is in use
    nowhere. *)
Definition max_list (ls : list loc) : nat := foldr Nat.max 0%nat ls.

Definition fresh_loc (h : Heap) : loc :=
  S (max_list ((map_to_list h).*1 ++ ((map_to_list h).*2 ≫= obj_refs))).

Definition alloc (h : Heap) (o : obj) : loc * Heap :=
  (fresh_loc h, <[fresh_loc h := o]> h).

Definition get_dict (h : Heap) (l : loc) : option (gmap string value) :=
  match h !! l with
  | Some (ODict d) => Some d
  | _ => None
  end.

(** [dict(x)] for a dict [x]: a new dict object with the same bindings.  The
    values are not copied: a reference is copied as a reference. *)
Definition dict_copy (h : Heap) (l : loc) : option (loc * Heap) :=
  match get_dict h l with
  | Some d => Some (alloc h (ODict d))
  | None => None
  end.

(** ** Exceptions, tools and node logic *)

Inductive exn :=
  | KeyError (arg : string)
  | ValueError (msg : string)
  | TypeError (msg : string)
  | Exception (msg : string).

(** [ToolFn = Callable[..., Any]]: arguments in, a value out (or an
    exception, [None] here), possibly allocating. *)
Definition ToolFn := list value → Heap → option (value * Heap).

(** What a call of node logic does: it returns its optional successor or
    raises, and leaves a heap behind either way. *)
Inductive outcome :=
  | Returns (next_override : option string) (h : Heap)
  | Raises (e : exn) (h : Heap).

Definition outcome_heap (o : outcome) : Heap :=
  match o with Returns _ h => h | Raises _ h => h end.

(** [NodeFn = Callable[[State, Dict[str, ToolFn]], Optional[str]]]: the state
    is received as a reference. *)
Definition NodeFn := loc → gmap string ToolFn → Heap → outcome.

Definition timestamp := Q.

(** ** Registries *)

Module ToolRegistry.
Record t := { tools : gmap string ToolFn }.

Definition init : t := {| tools := ∅ |}.

Definition register (self : t) (name : string) (func : ToolFn) : t :=
  {| tools := <[name := func]> (tools self) |}.

Definition get (self : t) (name : string) : exn + ToolFn :=
  match tools self !! name with
  | Some f => inr f
  | None => inl (KeyError name)
  end.

Definition all (self : t) : gmap string ToolFn := tools self.
End ToolRegistry.

Module NodeRegistry.
Record t := { nodes : gmap string NodeFn }.

Definition init : t := {| nodes := ∅ |}.

Definition register (self : t) (name : string) (func : NodeFn) : t :=
  {| nodes := <[name := func]> (nodes self) |}.

Definition get (self : t) (name : string) : exn + NodeFn :=
  match nodes self !! name with
  | Some f => inr f
  | None => inl (KeyError name)
  end.

Definition all (self : t) : gmap string NodeFn := nodes self.
End NodeRegistry.

(** ** Graphs and runs *)

Module NodeDef.
Record t := { name : string; func : NodeFn; description : string }.
End NodeDef.

Module GraphDef.
Record t := {
  id : string;
  name : string;
  nodes : gmap string NodeDef.t;
  edges : gmap string (option string);
  start_node : string
}.

(** [graph.edges.get(k)]: the bound value, [None] when [k] is absent. *)
Definition edges_get (g : t) (k : string) : option string :=
  match edges g !! k with
  | Some target => target
  | None => None
  end.
End GraphDef.

(** One element of [run.log]. *)
Module LogEntry.
Record t := {
  step : Z;
  node : string;
  before : loc;
  after : loc;
  next_override : option string
}.
End LogEntry.

Module RunRecord.
Record t := {
  id : string;
  graph_id : string;
  state : loc;
  current_node : option string;
  log : list LogEntry.t;
  finished : bool;
  started_at : timestamp;
  finished_at : option timestamp
}.

Definition append_log (run : t) (e : LogEntry.t) : t :=
  {| id := id run; graph_id := graph_id run; state := state run;
     current_node := current_node run; log := log run ++ [e];
     finished := finished run; started_at := started_at run;
     finished_at := finished_at run |}.

Definition set_current_node (run : t) (n : option string) : t :=
  {| id := id run; graph_id := graph_id run; state := state run;
     current_node := n; log := log run;
     finished := finished run; started_at := started_at run;
     finished_at := finished_at run |}.

Definition finish (run : t) (now : timestamp) : t :=
  {| id := id run; graph_id := graph_id run; state := state run;
     current_node := current_node run; log := log run;
     finished := true; started_at := started_at run;
     finished_at := Some now |}.
End RunRecord.

Module Engine.
Record t := {
  tools_registry : ToolRegistry.t;
  node_registry : NodeRegistry.t;
  graphs : gmap string GraphDef.t;
  runs : gmap string RunRecord.t
}.

Definition init (tools : ToolRegistry.t) (nodes : NodeRegistry.t) : t :=
  {| tools_registry := tools; node_registry := nodes;
     graphs := ∅; runs := ∅ |}.

Definition set_graphs (self : t) (gs : gmap string GraphDef.t) : t :=
  {| tools_registry := tools_registry self;
     node_registry := node_registry self;
     graphs := gs; runs := runs self |}.

Definition set_runs (self : t) (rs : gmap string RunRecord.t) : t :=
  {| tools_registry := tools_registry self;
     node_registry := node_registry self;
     graphs := graphs self; runs := rs |}.

Definition add_graph (self : t) (graph : GraphDef.t) : t :=
  set_graphs self (<[GraphDef.id graph := graph]> (graphs self)).
End Engine.

(** ** Graph construction *)

Inductive result (A : Type) :=
  | Return (a : A)
  | Raise (e : exn).
Arguments Return {A} a.
Arguments Raise {A} e.

(** The [for] loop of [create_graph_from_spec] over [node_specs.items()], in
    the dict's iteration order. *)
Fixpoint resolve_nodes (registry : NodeRegistry.t)
    (items : list (string * string)) (nodes : gmap string NodeDef.t)
    : exn + gmap string NodeDef.t :=
  match items with
  | [] => inr nodes
  | (node_name, fn_name) :: rest =>
      match NodeRegistry.get registry fn_name with
      | inl e => inl e
      | inr fn =>
          resolve_nodes registry rest
            (<[node_name := {| NodeDef.name := node_name; NodeDef.func := fn;
                               NodeDef.description := "" |}]> nodes)
      end
  end.

(** An item of [node_specs] whose function name the registry knows. *)
Definition registered (registry : NodeRegistry.t) (p : string * string)
    : Prop :=
  is_Some (NodeRegistry.nodes registry !! p.2).

(** [graph_id] is the value of [str(uuid.uuid4())]. *)
Definition create_graph_from_spec (self : Engine.t) (graph_id : string)
    (name : string) (node_specs : list (string * string))
    (edges : gmap string (option string)) (start_node : string)
    : result GraphDef.t * Engine.t :=
  match resolve_nodes (Engine.node_registry self) node_specs ∅ with
  | inl e => (Raise e, self)
  | inr nodes =>
      match nodes !! start_node with
      | None =>
          (Raise (ValueError ("start_node '" +:+ start_node +:+ "' not in nodes")),
           self)
      | Some _ =>
          let graph :=
            {| GraphDef.id := graph_id; GraphDef.name := name;
               GraphDef.nodes := nodes; GraphDef.edges := edges;
               GraphDef.start_node := start_node |} in
          (Return graph, Engine.add_graph self graph)
      end
  end.

(** ** Execution *)

(** The variables of the [while] loop of [run_graph]: the run object, the
    step counter and the heap. *)
Record Config := {
  c_run : RunRecord.t;
  c_step : Z;
  c_heap : Heap
}.

Definition with_heap (c : Config) (h : Heap) : Config :=
  {| c_run := c_run c; c_step := c_step c; c_heap := h |}.

(** [dict(x)] raises when [x] is not a mapping.  A [State] is a dict by its
    type, so the engine has no branch for this; the model needs one because
    a heap may hold any object at the state's location. *)
Definition not_a_dict : exn := TypeError "state is not a dict".

(** The body of the loop, entered with [run.current_node = current]. *)
Definition loop_body (graph : GraphDef.t) (tools : gmap string ToolFn)
    (current : string) (c : Config) : exn * Config + Config :=
  let run := c_run c in
  match GraphDef.nodes graph !! current with
  | None => inl (KeyError current, c)
  | Some node_def =>
      match dict_copy (c_heap c) (RunRecord.state run) with
      | None => inl (not_a_dict, c)
      | Some (before, h1) =>
          match NodeDef.func node_def (RunRecord.state run) tools h1 with
          | Raises e h2 => inl (e, with_heap c h2)
          | Returns next_override h2 =>
              match dict_copy h2 (RunRecord.state run) with
              | None => inl (not_a_dict, with_heap c h2)
              | Some (after, h3) =>
                  let run :=
                    RunRecord.append_log run
                      {| LogEntry.step := c_step c;
                         LogEntry.node := NodeDef.name node_def;
                         LogEntry.before := before;
                         LogEntry.after := after;
                         LogEntry.next_override := next_override |} in
                  let run :=
                    match next_override with
                    | Some n => RunRecord.set_current_node run (Some n)
                    | None =>
                        RunRecord.set_current_node run
                          (GraphDef.edges_get graph (NodeDef.name node_def))
                    end in
                  inr {| c_run := run; c_step := c_step c + 1; c_heap := h3 |}
              end
          end
      end
  end.

(** The loop condition [run.current_node is not None and step < max_steps]:
    the node to run, or [None] when the loop is left. *)
Definition loop_cond (max_steps : Z) (c : Config) : option string :=
  match RunRecord.current_node (c_run c) with
  | Some current => if c_step c <? max_steps then Some current else None
  | None => None
  end.

Inductive loop_result :=
  | LoopExit (c : Config)
  | LoopRaise (e : exn) (c : Config)
  | OutOfFuel.

Fixpoint while_loop (fuel : nat) (graph : GraphDef.t)
    (tools : gmap string ToolFn) (max_steps : Z) (c : Config) : loop_result :=
  match loop_cond max_steps c with
  | None => LoopExit c
  | Some current =>
      match fuel with
      | O => OutOfFuel
      | S fuel =>
          match loop_body graph tools current c with
          | inl (e, c) => LoopRaise e c
          | inr c => while_loop fuel graph tools max_steps c
          end
      end
  end.

(** [dict(initial_state or {})]: the bindings of the caller's dict, none when
    the argument is [None]. *)
Definition initial_bindings (initial_state : option loc) (h : Heap)
    : option (gmap string value) :=
  match initial_state with
  | None => Some ∅
  | Some l => get_dict h l
  end.

(** [self.runs[run_id] = run]. *)
Definition store_run (self : Engine.t) (run_id : string) (run : RunRecord.t)
    : Engine.t :=
  Engine.set_runs self (<[run_id := run]> (Engine.runs self)).

(** [RunRecord(id=run_id, graph_id=graph_id, state=state,
    current_node=graph.start_node)]; the other fields take their defaults,
    [started_at] the reading [t_start] of [time.time()]. *)
Definition new_run (run_id graph_id : string) (state : loc)
    (graph : GraphDef.t) (t_start : timestamp) : RunRecord.t :=
  {| RunRecord.id := run_id; RunRecord.graph_id := graph_id;
     RunRecord.state := state;
     RunRecord.current_node := Some (GraphDef.start_node graph);
     RunRecord.log := []; RunRecord.finished := false;
     RunRecord.started_at := t_start; RunRecord.finished_at := None |}.

Inductive run_result :=
  | RunReturn (run : RunRecord.t) (self : Engine.t) (h : Heap)
  | RunRaise (e : exn) (self : Engine.t) (h : Heap)
  | RunOutOfFuel.

(** [run_id] is the value of [str(uuid.uuid4())], [t_start] and [t_end] are
    the two readings of [time.time()].  The run table is written before the
    loop and holds the run object itself, not a copy: at either exit it
    shows the object as the loop left it, which the second [store_run] of
    each branch expresses. *)
Definition run_graph_fuel (fuel : nat) (self : Engine.t) (run_id : string)
    (t_start t_end : timestamp) (graph_id : string)
    (initial_state : option loc) (max_steps : Z) (h : Heap) : run_result :=
  match Engine.graphs self !! graph_id with
  | None => RunRaise (KeyError ("Graph '" +:+ graph_id +:+ "' not found")) self h
  | Some graph =>
      match initial_bindings initial_state h with
      | None => RunRaise not_a_dict self h
      | Some d =>
          let '(state, h) := alloc h (ODict d) in
          let run := new_run run_id graph_id state graph t_start in
          let self := store_run self run_id run in
          let tools := ToolRegistry.all (Engine.tools_registry self) in
          match
            while_loop fuel graph tools max_steps
              {| c_run := run; c_step := 0; c_heap := h |}
          with
          | LoopExit c =>
              let run := RunRecord.finish (c_run c) t_end in
              RunReturn run (store_run self run_id run) (c_heap c)
          | LoopRaise e c =>
              RunRaise e (store_run self run_id (c_run c)) (c_heap c)
          | OutOfFuel => RunOutOfFuel
          end
      end
  end.

(** The loop runs its body at most [max_steps] times, so that much fuel is
    enough (theorem [run_graph_terminates]). *)
Definition run_graph (self : Engine.t) (run_id : string)
    (t_start t_end : timestamp) (graph_id : string)
    (initial_state : option loc) (max_steps : Z) (h : Heap) : run_result :=
  run_graph_fuel (Z.to_nat max_steps) self run_id t_start t_end graph_id
    initial_state max_steps h.

(** The default of the parameter [max_steps]. *)
Definition max_steps_default : Z := 100.

Definition get_run (self : Engine.t) (run_id : string) : result RunRecord.t :=
  match Engine.runs self !! run_id with
  | Some run => Return run
  | None => Raise (KeyError ("Run '" +:+ run_id +:+ "' not found"))
  end.

(** ** Observing the loop

    [iterate n c] is the configuration after [n] further completed runs of
    the loop body from [c], when there are that many. *)

Fixpoint iterate (graph : GraphDef.t) (tools : gmap string ToolFn) (n : nat)
    (c : Config) : option Config :=
  match n with
  | O => Some c
  | S n =>
      match RunRecord.current_node (c_run c) with
      | None => None
      | Some current =>
          match loop_body graph tools current c with
          | inr c => iterate graph tools n c
          | inl _ => None
          end
      end
  end.

(** The successor chosen after a step whose node is named [node] and
    returned [next_override]. *)
Definition transition (graph : GraphDef.t) (node : string)
    (next_override : option string) : option string :=
  match next_override with
  | Some n => Some n
  | None => GraphDef.edges_get graph node
  end.

(** The configuration in which [run_graph] enters its loop, when
    [initial_state] holds the bindings [d]. *)
Definition initial_config (run_id graph_id : string) (graph : GraphDef.t)
    (t_start : timestamp) (d : gmap string value) (h : Heap) : Config :=
  {| c_run := new_run run_id graph_id (fresh_loc h) graph t_start;
     c_step := 0;
     c_heap := <[fresh_loc h := ODict d]> h |}.

(** The run object that a call of [run_graph] left behind: the one it
    returned, or the one in the run table when it raised. *)
Definition recorded_run (run_id : string) (r : run_result)
    : option RunRecord.t :=
  match r with
  | RunReturn run _ _ => Some run
  | RunRaise _ self _ => Engine.runs self !! run_id
  | RunOutOfFuel => None
  end.

Definition result_heap (r : run_result) : option Heap :=
  match r with
  | RunReturn _ _ h => Some h
  | RunRaise _ _ h => Some h
  | RunOutOfFuel => None
  end.

(** ** Reachability and the footprint of node logic *)

Definition points_to (h : Heap) (l l' : loc) : Prop :=
  ∃ o, h !! l = Some o ∧ l' ∈ obj_refs o.

Definition reach (h : Heap) : loc → loc → Prop := rtc (points_to h).

(** Node logic that works on what it is handed: an object that cannot be
    reached from the state it receives is left as it is, and stays out of
    reach. *)
Definition confined (f : NodeFn) : Prop :=
  ∀ state tools (h : Heap) l,
    is_Some (h !! l) → ¬ reach h state l →
    outcome_heap (f state tools h) !! l = h !! l ∧
    ¬ reach (outcome_heap (f state tools h)) state l.

Definition confined_graph (graph : GraphDef.t) : Prop :=
  ∀ k node_def,
    GraphDef.nodes graph !! k = Some node_def →
    confined (NodeDef.func node_def).

(** An allocated object that is out of reach of the run's state. *)
Definition outside (c : Config) (l : loc) : Prop :=
  is_Some (c_heap c !! l) ∧ ¬ reach (c_heap c) (RunRecord.state (c_run c)) l.

(** What a value shows when it is read through the heap, to a given depth:
    the contents of the objects it refers to, not their identities. *)
#[warnings="-register-all"]
Inductive tree :=
  | Atom (v : value)
  | Dict (items : list (string * tree))
  | List (items : list tree)
  | Dangling
  | Cut.

Fixpoint view (depth : nat) (h : Heap) (v : value) : tree :=
  match v with
  | VRef l =>
      match depth with
      | O => Cut
      | S depth =>
          match h !! l with
          | Some (ODict d) =>
              Dict ((λ kv, (kv.1, view depth h kv.2)) <$> map_to_list d)
          | Some (OList xs) => List (view depth h <$> xs)
          | None => Dangling
          end
      end
  | _ => Atom v
  end.

(** ** Well-formed graphs *)

Definition valid_current_node (graph : GraphDef.t) (n : option string)
    : Prop :=
  match n with
  | Some k => is_Some (GraphDef.nodes graph !! k)
  | None => True
  end.

(** The invariant of [GraphDef]: the start node and every edge target are
    nodes of the graph. *)
Definition well_formed (graph : GraphDef.t) : Prop :=
  is_Some (GraphDef.nodes graph !! GraphDef.start_node graph) ∧
  ∀ k target,
    GraphDef.edges graph !! k = Some (Some target) →
    is_Some (GraphDef.nodes graph !! target).

(** Every successor that the graph's node logic names is a node of the
    graph. *)
Definition overrides_valid (graph : GraphDef.t) : Prop :=
  ∀ k node_def state tools (h h' : Heap) n,
    GraphDef.nodes graph !! k = Some node_def →
    NodeDef.func node_def state tools h = Returns (Some n) h' →
    is_Some (GraphDef.nodes graph !! n).

(** ** Example graphs *)

Definition empty_engine : Engine.t :=
  Engine.init ToolRegistry.init NodeRegistry.init.

(** A node that names itself as its successor, whatever the state. *)
Definition always_extract : NodeFn :=
  λ state tools h, Returns (Some "extract") h.

Definition self_loop_graph : GraphDef.t :=
  {| GraphDef.id := "self_loop"; GraphDef.name := "self loop";
     GraphDef.nodes :=
       {[ "extract" :=
            {| NodeDef.name := "extract"; NodeDef.func := always_extract;
               NodeDef.description := "" |} ]};
     GraphDef.edges := {[ "extract" := None ]};
     GraphDef.start_node := "extract" |}.

(** A registry that knows the one node function ["loop"]. *)
Definition loop_registry : NodeRegistry.t :=
  NodeRegistry.register NodeRegistry.init "loop" always_extract.

Definition loop_engine : Engine.t :=
  Engine.init ToolRegistry.init loop_registry.

(** A node that fails, as [tools["missing"]] would. *)
Definition always_raise : NodeFn :=
  λ state tools h, Raises (KeyError "missing") h.

(** [extract -> fail]: the first node follows its edge, the second raises. *)
Definition failing_graph : GraphDef.t :=
  {| GraphDef.id := "failing"; GraphDef.name := "failing";
     GraphDef.nodes :=
       {[ "extract" :=
            {| NodeDef.name := "extract";
               NodeDef.func := λ state tools h, Returns None h;
               NodeDef.description := "" |};
          "fail" :=
            {| NodeDef.name := "fail"; NodeDef.func := always_raise;
               NodeDef.description := "" |} ]};
     GraphDef.edges := {[ "extract" := Some "fail"; "fail" := None ]};
     GraphDef.start_node := "extract" |}.

(** [state["items"].append(1)], then follow the static edge. *)
Definition append_item : NodeFn :=
  λ state tools h,
    match get_dict h state with
    | Some d =>
        match d !! "items" with
        | Some (VRef l) =>
            match h !! l with
            | Some (OList xs) =>
                Returns None (<[l := OList (xs ++ [VInt 1])]> h)
            | _ => Raises (Exception "AttributeError") h
            end
        | Some _ => Raises (Exception "AttributeError") h
        | None => Raises (KeyError "items") h
        end
    | None => Raises not_a_dict h
    end.

(** [extract -> check], both nodes appending to [state["items"]]. *)
Definition append_graph : GraphDef.t :=
  {| GraphDef.id := "append"; GraphDef.name := "append";
     GraphDef.nodes :=
       {[ "extract" :=
            {| NodeDef.name := "extract"; NodeDef.func := append_item;
               NodeDef.description := "" |};
          "check" :=
            {| NodeDef.name := "check"; NodeDef.func := append_item;
               NodeDef.description := "" |} ]};
     GraphDef.edges := {[ "extract" := Some "check"; "check" := None ]};
     GraphDef.start_node := "extract" |}.

Definition append_engine : Engine.t :=
  Engine.add_graph empty_engine append_graph.

(** The caller's heap: an empty list at 1 and, at 2, the dict
    [{"items": <the list at 1>}] that is passed as [initial_state]. *)
Definition caller_heap : Heap :=
  {[ 1%nat := OList []; 2%nat := ODict {[ "items" := VRef 1%nat ]} ]}.

(** [extract -> check -> report], where [check] always names [extract] as
    its successor: [extract] and [report] return null, and [report] has no
    static edge. *)
Definition detour_graph : GraphDef.t :=
  {| GraphDef.id := "detour"; GraphDef.name := "detour";
     GraphDef.nodes :=
       {[ "extract" :=
            {| NodeDef.name := "extract";
               NodeDef.func := λ state tools h, Returns None h;
               NodeDef.description := "" |};
          "check" :=
            {| NodeDef.name := "check";
               NodeDef.func := λ state tools h, Returns (Some "extract") h;
               NodeDef.description := "" |};
          "report" :=
            {| NodeDef.name := "report";
               NodeDef.func := λ state tools h, Returns None h;
               NodeDef.description := "" |} ]};
     GraphDef.edges :=
       {[ "extract" := Some "check"; "check" := Some "report" ]};
     GraphDef.start_node := "extract" |}.

(** A node that names a successor the graph does not have. *)
Definition stray_graph : GraphDef.t :=
  {| GraphDef.id := "stray"; GraphDef.name := "stray";
     GraphDef.nodes :=
       {[ "extract" :=
            {| NodeDef.name := "extract";
               NodeDef.func := λ state tools h, Returns (Some "nowhere") h;
               NodeDef.description := "" |} ]};
     GraphDef.edges := {[ "extract" := None ]};
     GraphDef.start_node := "extract" |}.

From Stdlib Require Import Ascii.

(** ** Further observations *)

(** The engine that a call of [run_graph] leaves. *)
Definition result_engine (r : run_result) : option Engine.t :=
  match r with
  | RunReturn _ self _ => Some self
  | RunRaise _ self _ => Some self
  | RunOutOfFuel => None
  end.

(** A graph whose nodes are filed under their own names, as
    [create_graph_from_spec] and [register_code_review_workflow] file
    them. *)
Definition name_keyed (graph : GraphDef.t) : Prop :=
  ∀ k node_def,
    GraphDef.nodes graph !! k = Some node_def → NodeDef.name node_def = k.

(** ** The HTTP layer (app/main.py)

    The three route functions, over the engine they share.  FastAPI and
    pydantic stay outside: a payload is the request after validation, and a
    route function returns its response, raises [HTTPException], or lets an
    exception through. *)

(** [d[k] = v] on the items of a dict, in insertion order: a key that is
    present keeps its place and takes the new value, a new key goes last. *)
Fixpoint dict_set {A : Type} (items : list (string * A)) (k : string) (v : A)
    : list (string * A) :=
  match items with
  | [] => [(k, v)]
  | (k', v') :: rest =>
      if decide (k' = k) then (k, v) :: rest
      else (k', v') :: dict_set rest k v
  end.

Module Main.

Record HTTPException := { status_code : Z; detail : string }.

Inductive response (A : Type) :=
  | Ok (a : A)
  | HttpError (e : HTTPException)
  | Uncaught (e : exn)
  | NoResult.
Arguments Ok {A} a.
Arguments HttpError {A} e.
Arguments Uncaught {A} e.
Arguments NoResult {A}.

Module GraphCreateNode.
Record t := { name : string; function : string }.
End GraphCreateNode.

(** [edges] holds the items of the payload's dict in insertion order; their
    keys are distinct. *)
Module GraphCreateRequest.
Record t := {
  name : string;
  nodes : list GraphCreateNode.t;
  edges : list (string * option string);
  start_node : string
}.
End GraphCreateRequest.

Module GraphCreateResponse.
Record t := { graph_id : string }.
End GraphCreateResponse.

(** [initial_state] is a reference to the payload's dict. *)
Module GraphRunRequest.
Record t := { graph_id : string; initial_state : loc }.
End GraphRunRequest.

Module GraphRunResponse.
Record t := {
  run_id : string;
  final_state : loc;
  log : list LogEntry.t
}.
End GraphRunResponse.

Module RunStateResponse.
Record t := {
  run_id : string;
  graph_id : string;
  state : loc;
  current_node : option string;
  finished : bool;
  log : list LogEntry.t
}.
End RunStateResponse.

(** [{n.name: n.function for n in payload.nodes}], as the items of the
    dict. *)
Definition node_specs_of (nodes : list GraphCreateNode.t)
    : list (string * string) :=
  foldl
    (λ items n,
       dict_set items (GraphCreateNode.name n) (GraphCreateNode.function n))
    [] nodes.

(** The validation loop of [create_graph] over [payload.edges.items()]: the
    exception it raises, if any. *)
Fixpoint check_edges (node_specs : list (string * string))
    (edges : list (string * option string)) : option HTTPException :=
  match edges with
  | [] => None
  | (from_node, to_node) :: rest =>
      if bool_decide (from_node ∈ node_specs.*1) then
        match to_node with
        | Some target =>
            if bool_decide (target ∈ node_specs.*1) then
              check_edges node_specs rest
            else
              Some {| status_code := 400;
                      detail := "Edge target node '" +:+ target
                                  +:+ "' not in nodes list." |}
        | None => check_edges node_specs rest
        end
      else
        Some {| status_code := 400;
                detail := "Edge source node '" +:+ from_node
                            +:+ "' not in nodes list." |}
  end.

(** [POST /graph/create].  [graph_id] is the value of [uuid.uuid4()] that the
    engine draws.  [repr] is Python's [repr] on strings: [str(e)] of a
    [KeyError] is the [repr] of its argument. *)
Definition create_graph (repr : string → string) (engine : Engine.t)
    (graph_id : string) (payload : GraphCreateRequest.t)
    : response GraphCreateResponse.t * Engine.t :=
  let node_specs := node_specs_of (GraphCreateRequest.nodes payload) in
  match check_edges node_specs (GraphCreateRequest.edges payload) with
  | Some e => (HttpError e, engine)
  | None =>
      match
        create_graph_from_spec engine graph_id
          (GraphCreateRequest.name payload) node_specs
          (list_to_map (GraphCreateRequest.edges payload))
          (GraphCreateRequest.start_node payload)
      with
      | (Return graph, engine) =>
          (Ok {| GraphCreateResponse.graph_id := GraphDef.id graph |}, engine)
      | (Raise (KeyError arg), engine) =>
          (HttpError
             {| status_code := 400;
                detail := "Unknown node function: " +:+ repr arg |},
           engine)
      | (Raise (ValueError msg), engine) =>
          (HttpError {| status_code := 400; detail := msg |}, engine)
      | (Raise e, engine) => (Uncaught e, engine)
      end
  end.

(** Building [GraphRunResponse] or [RunStateResponse] validates the fields:
    for a field of type [Dict[str, Any]] pydantic builds a new dict with the
    items of the one it is given, the values being taken as they are, and
    for [List[Dict[str, Any]]] a new list of such new dicts.  So the state
    of a response is a copy of the run's state in the heap.  Log entries are
    values here, and a list of copied entries is the same list.  As in the
    engine, the copy of something that is not a dict gets a branch of its
    own. *)

(** [GET /graph/state/{run_id}]. *)
Definition get_run_state (engine : Engine.t) (run_id : string) (h : Heap)
    : response RunStateResponse.t * Heap :=
  match get_run engine run_id with
  | Return run_record =>
      match dict_copy h (RunRecord.state run_record) with
      | Some (state, h) =>
          (Ok {| RunStateResponse.run_id := RunRecord.id run_record;
                 RunStateResponse.graph_id := RunRecord.graph_id run_record;
                 RunStateResponse.state := state;
                 RunStateResponse.current_node :=
                   RunRecord.current_node run_record;
                 RunStateResponse.finished := RunRecord.finished run_record;
                 RunStateResponse.log := RunRecord.log run_record |}, h)
      | None => (Uncaught not_a_dict, h)
      end
  | Raise (KeyError _) =>
      (HttpError {| status_code := 404; detail := "Run not found" |}, h)
  | Raise e => (Uncaught e, h)
  end.

(** [POST /graph/run].  The engine is called without [max_steps], so with
    its default; [except KeyError] catches every [KeyError] that leaves
    [engine.run_graph], whatever raised it.  [NoResult] stands for the
    model's loop running out of fuel. *)
Definition run_graph (engine : Engine.t) (run_id : string)
    (t_start t_end : timestamp) (payload : GraphRunRequest.t) (h : Heap)
    : response GraphRunResponse.t * Engine.t * Heap :=
  match
    run_graph engine run_id t_start t_end (GraphRunRequest.graph_id payload)
      (Some (GraphRunRequest.initial_state payload)) max_steps_default h
  with
  | RunReturn run_record engine h =>
      match dict_copy h (RunRecord.state run_record) with
      | Some (final_state, h) =>
          (Ok {| GraphRunResponse.run_id := RunRecord.id run_record;
                 GraphRunResponse.final_state := final_state;
                 GraphRunResponse.log := RunRecord.log run_record |},
           engine, h)
      | None => (Uncaught not_a_dict, engine, h)
      end
  | RunRaise (KeyError _) engine h =>
      (HttpError {| status_code := 404; detail := "Graph not found" |},
       engine, h)
  | RunRaise e engine h => (Uncaught e, engine, h)
  | RunOutOfFuel => (NoResult, engine, h)
  end.

End Main.

(** An edge whose source is a node name of [node_specs] and whose target,
    when it has one, is too. *)
Definition edge_valid (node_specs : list (string * string))
    (edge : string * option string) : Prop :=
  edge.1 ∈ node_specs.*1 ∧
  ∀ target, edge.2 = Some target → target ∈ node_specs.*1.

(** ** The text tools of the code-review workflow (app/workflows.py)

    A Python [str] is a [string] with one character per code point, so these
    definitions cover text whose code points are below 256.  A tool's result,
    a dict with fixed keys, is a record. *)

Module Workflows.

(** [sub in s] on [str]: [sub] occurs in [s] as a contiguous part. *)
Fixpoint contains (sub s : string) : bool :=
  if String.prefix sub s then true
  else
    match s with
    | EmptyString => false
    | String _ s' => contains sub s'
    end.

(** The line boundaries of [str.splitlines] below 256: LF, VT, FF, CR, FS,
    GS, RS and NEL. *)
Definition is_linebreak (c : ascii) : bool :=
  bool_decide (nat_of_ascii c ∈ [10; 11; 12; 13; 28; 29; 30; 133]%nat).

(** The characters that [str.strip] removes, those of [str.isspace], below
    256: TAB to CR, FS to US, space, NEL and the no-break space. *)
Definition is_space (c : ascii) : bool :=
  bool_decide
    (nat_of_ascii c ∈ [9; 10; 11; 12; 13; 28; 29; 30; 31; 32; 133; 160]%nat).

(** [s.splitlines()]: the lines of [s] without their line breaks; CR LF is
    one break, and a break at the very end does not open a last line. *)
Fixpoint splitlines (s : string) : list string :=
  match s with
  | EmptyString => []
  | String c s' =>
      if is_linebreak c then
        match c, s' with
        | "013"%char, String "010"%char s'' => "" :: splitlines s''
        | _, _ => "" :: splitlines s'
        end
      else
        match splitlines s' with
        | [] => [String c ""]
        | line :: lines => String c line :: lines
        end
  end.

Fixpoint lstrip (s : string) : string :=
  match s with
  | EmptyString => ""
  | String c s' => if is_space c then lstrip s' else s
  end.

Fixpoint rstrip (s : string) : string :=
  match s with
  | EmptyString => ""
  | String c s' =>
      match rstrip s' with
      | EmptyString => if is_space c then "" else String c ""
      | r => String c r
      end
  end.

(** [s.strip()]. *)
Definition strip (s : string) : string := rstrip (lstrip s).

(** [s[n:]]. *)
Fixpoint drop_chars (n : nat) (s : string) : string :=
  match n, s with
  | O, _ => s
  | S n, String _ s' => drop_chars n s'
  | S _, EmptyString => ""
  end.

(** [s.split(sep, 1)[0]] for a one-character [sep]: what comes before the
    first [sep], all of [s] when there is none. *)
Fixpoint before (sep : ascii) (s : string) : string :=
  match s with
  | EmptyString => ""
  | String c s' => if Ascii.eqb c sep then "" else String c (before sep s')
  end.

(** The body of the loop of [tool_extract_functions] for one line: the name
    it appends, if any. *)
Definition function_name (line : string) : option string :=
  let stripped := strip line in
  if String.prefix "def " stripped then
    let name_part := drop_chars (String.length "def ") stripped in
    let name := strip (before "("%char name_part) in
    match name with
    | EmptyString => None
    | _ => Some name
    end
  else None.

Record FunctionsResult := { functions : list string }.

Definition tool_extract_functions (code : string) : FunctionsResult :=
  {| functions := omap function_name (splitlines code) |}.

Record IssuesResult := { issues : list string; issue_count : Z }.

Definition todo_issue : string := "Found TODO comments in the code.".
Definition print_issue : string := "Debug 'print' statements present.".
Definition long_issue : string := "File is quite long; consider splitting it.".
Definition import_issue : string :=
  "Wildcard imports detected; prefer explicit imports.".

Definition tool_detect_issues (code : string) : IssuesResult :=
  let issues := [] in
  let issues :=
    if contains "TODO" code then issues ++ [todo_issue] else issues in
  let issues :=
    if contains "print(" code then issues ++ [print_issue] else issues in
  let issues :=
    if 2000 <? Z.of_nat (String.length code) then issues ++ [long_issue]
    else issues in
  let issues :=
    if contains "import *" code then issues ++ [import_issue] else issues in
  {| issues := issues; issue_count := Z.of_nat (length issues) |}.

End Workflows.

(** ** Registering the code-review workflow (app/workflows.py)

    [register_code_review_workflow] hands the module's four tool functions
    and five node functions to the registries and to the graph without
    calling them; here they are the variables of the section.  The function
    is modelled as [main.py] calls it, with [tools] and [nodes] being the
    registries of [engine] itself. *)

Module CodeReview.
Section register.
Context (tool_extract_functions tool_check_complexity tool_detect_issues
         tool_suggest_improvements : ToolFn).
Context (node_extract node_check_complexity node_detect_issues
         node_suggest_improvements node_evaluate_quality : NodeFn).

Definition node_defs : gmap string NodeDef.t :=
  <["extract" :=
      {| NodeDef.name := "extract"; NodeDef.func := node_extract;
         NodeDef.description := "Extract functions from source code" |}]>
  (<["check_complexity" :=
      {| NodeDef.name := "check_complexity";
         NodeDef.func := node_check_complexity;
         NodeDef.description := "Compute a toy complexity score" |}]>
  (<["detect_issues" :=
      {| NodeDef.name := "detect_issues";
         NodeDef.func := node_detect_issues;
         NodeDef.description := "Find basic code issues" |}]>
  (<["suggest_improvements" :=
      {| NodeDef.name := "suggest_improvements";
         NodeDef.func := node_suggest_improvements;
         NodeDef.description :=
           "Suggest improvements and compute a quality score" |}]>
  (<["evaluate_quality" :=
      {| NodeDef.name := "evaluate_quality";
         NodeDef.func := node_evaluate_quality;
         NodeDef.description :=
           "Decide whether to loop or stop based on quality score" |}]>
   ∅)))).

Definition edges : gmap string (option string) :=
  <["extract" := Some "check_complexity"]>
  (<["check_complexity" := Some "detect_issues"]>
  (<["detect_issues" := Some "suggest_improvements"]>
  (<["suggest_improvements" := Some "evaluate_quality"]>
  (<["evaluate_quality" := None]> ∅)))).

Definition graph : GraphDef.t :=
  {| GraphDef.id := "code_review";
     GraphDef.name := "Code Review Mini-Agent";
     GraphDef.nodes := node_defs;
     GraphDef.edges := edges;
     GraphDef.start_node := "extract" |}.

Definition register_code_review_workflow (engine : Engine.t)
    : string * Engine.t :=
  let tools := Engine.tools_registry engine in
  let tools :=
    ToolRegistry.register tools "extract_functions" tool_extract_functions in
  let tools :=
    ToolRegistry.register tools "check_complexity" tool_check_complexity in
  let tools :=
    ToolRegistry.register tools "detect_issues" tool_detect_issues in
  let tools :=
    ToolRegistry.register tools "suggest_improvements"
      tool_suggest_improvements in
  let nodes := Engine.node_registry engine in
  let nodes := NodeRegistry.register nodes "extract" node_extract in
  let nodes :=
    NodeRegistry.register nodes "check_complexity" node_check_complexity in
  let nodes :=
    NodeRegistry.register nodes "detect_issues" node_detect_issues in
  let nodes :=
    NodeRegistry.register nodes "suggest_improvements"
      node_suggest_improvements in
  let nodes :=
    NodeRegistry.register nodes "evaluate_quality" node_evaluate_quality in
  let engine :=
    {| Engine.tools_registry := tools; Engine.node_registry := nodes;
       Engine.graphs := Engine.graphs engine;
       Engine.runs := Engine.runs engine |} in
  let graph_id := "code_review" in
  (graph_id, Engine.add_graph engine graph).

End register.
End CodeReview.

(** ** The loop body *)

Section loop.
Context (graph : GraphDef.t) (tools : gmap string ToolFn).

Implicit Types (c : Config) (h : Heap) (n : nat).

Lemma loop_body_inr current c c' :
  loop_body graph tools current c = inr c' →
  ∃ node_def before h1 next_override h2 after h3,
    GraphDef.nodes graph !! current = Some node_def ∧
    dict_copy (c_heap c) (RunRecord.state (c_run c)) = Some (before, h1) ∧
    NodeDef.func node_def (RunRecord.state (c_run c)) tools h1
      = Returns next_override h2 ∧
    dict_copy h2 (RunRecord.state (c_run c)) = Some (after, h3) ∧
    c' = {| c_run :=
              RunRecord.set_current_node
                (RunRecord.append_log (c_run c)
                   {| LogEntry.step := c_step c;
                      LogEntry.node := NodeDef.name node_def;
                      LogEntry.before := before;
                      LogEntry.after := after;
                      LogEntry.next_override := next_override |})
                (transition graph (NodeDef.name node_def) next_override);
            c_step := c_step c + 1;
            c_heap := h3 |}.
Proof.
  unfold loop_body. intros H.
  destruct (GraphDef.nodes graph !! current) as [node_def|]; [|discriminate].
  destruct (dict_copy _ _) as [[before h1]|] eqn:Hb; [|discriminate].
  destruct (NodeDef.func _ _ _ _) as [ov h2|] eqn:Hf; [|discriminate].
  destruct (dict_copy h2 _) as [[after h3]|] eqn:Ha; [|discriminate].
  exists node_def, before, h1, ov, h2, after, h3.
  repeat split; try done.
  destruct ov; by inversion H.
Qed.

(** A failing body leaves the run object and the counter as they were. *)
Lemma loop_body_inl current c e c' :
  loop_body graph tools current c = inl (e, c') →
  c_run c' = c_run c ∧ c_step c' = c_step c.
Proof.
  unfold loop_body. intros H.
  destruct (GraphDef.nodes graph !! current) as [node_def|];
    [|by inversion H].
  destruct (dict_copy _ _) as [[before h1]|]; [|by inversion H].
  destruct (NodeDef.func _ _ _ _) as [ov h2|]; [|by inversion H].
  destruct (dict_copy h2 _) as [[after h3]|]; [|by inversion H].
  destruct ov; discriminate.
Qed.

(** What a completed body changes in the run object. *)
Lemma loop_body_run current c c' :
  loop_body graph tools current c = inr c' →
  c_step c' = c_step c + 1 ∧
  RunRecord.state (c_run c') = RunRecord.state (c_run c) ∧
  RunRecord.finished (c_run c') = RunRecord.finished (c_run c) ∧
  ∃ e, RunRecord.log (c_run c') = RunRecord.log (c_run c) ++ [e] ∧
       LogEntry.step e = c_step c ∧
       RunRecord.current_node (c_run c')
         = transition graph (LogEntry.node e) (LogEntry.next_override e).
Proof.
  intros H. apply loop_body_inr in H
    as (nd & b & h1 & ov & h2 & a & h3 & _ & _ & _ & _ & ->).
  simpl. repeat split. eexists. repeat split.
Qed.

(** ** Iterating the body *)

Lemma iterate_S n c c' :
  iterate graph tools (S n) c = Some c' ↔
  ∃ current c1, RunRecord.current_node (c_run c) = Some current ∧
    loop_body graph tools current c = inr c1 ∧
    iterate graph tools n c1 = Some c'.
Proof.
  simpl. split.
  - destruct (RunRecord.current_node (c_run c)) as [k|]; [|done].
    destruct (loop_body graph tools k c) as [|c1] eqn:Hb; [done|]. eauto.
  - intros (k & c1 & -> & -> & H). done.
Qed.

Lemma iterate_add n m c c1 c2 :
  iterate graph tools n c = Some c1 →
  iterate graph tools m c1 = Some c2 →
  iterate graph tools (n + m) c = Some c2.
Proof.
  revert c. induction n as [|n IH]; intros c.
  - simpl. by intros [= ->].
  - intros (k & c' & Hk & Hb & Hn)%iterate_S Hm.
    change (S n + m)%nat with (S (n + m)). apply iterate_S. eauto 6.
Qed.

Lemma iterate_split n m c c2 :
  iterate graph tools (n + m) c = Some c2 →
  ∃ c1, iterate graph tools n c = Some c1 ∧
        iterate graph tools m c1 = Some c2.
Proof.
  revert c. induction n as [|n IH]; intros c.
  - simpl. eauto.
  - change (S n + m)%nat with (S (n + m)).
    intros (k & c' & Hk & Hb & Hn)%iterate_S.
    destruct (IH _ Hn) as (c1 & H1 & H2).
    exists c1. split; [|done]. apply iterate_S. eauto 6.
Qed.

Lemma iterate_snoc n c c' :
  iterate graph tools (S n) c = Some c' ↔
  ∃ current c1, iterate graph tools n c = Some c1 ∧
    RunRecord.current_node (c_run c1) = Some current ∧
    loop_body graph tools current c1 = inr c'.
Proof.
  split.
  - replace (S n) with (n + 1)%nat by lia.
    intros (c1 & H1 & H2)%iterate_split.
    apply iterate_S in H2 as (k & c2 & Hk & Hb & [= ->]). eauto 6.
  - intros (k & c1 & H1 & Hk & Hb).
    replace (S n) with (n + 1)%nat by lia.
    eapply iterate_add; [done|]. apply iterate_S. eauto 6.
Qed.

(** After [n] iterations the counter has advanced by [n], the log has [n]
    more entries numbered from the counter's old value, and the state is the
    same object. *)
Lemma iterate_run n c c' :
  iterate graph tools n c = Some c' →
  c_step c' = c_step c + Z.of_nat n ∧
  RunRecord.state (c_run c') = RunRecord.state (c_run c) ∧
  RunRecord.finished (c_run c') = RunRecord.finished (c_run c) ∧
  ∃ es, RunRecord.log (c_run c') = RunRecord.log (c_run c) ++ es ∧
        length es = n ∧
        LogEntry.step <$> es = seqZ (c_step c) (Z.of_nat n).
Proof.
  revert c'. induction n as [|n IH]; intros c'.
  - intros [= <-]. repeat split; [lia|]. exists []. by rewrite app_nil_r.
  - intros (k & c1 & H1 & Hk & Hb)%iterate_snoc.
    destruct (IH _ H1) as (Hs & Hst & Hfin & es & Hlog & Hlen & Hsteps).
    apply loop_body_run in Hb as (Hs' & Hst' & Hfin' & e & Hlog' & He & _).
    repeat split; [lia|congruence|congruence|].
    exists (es ++ [e]). split; [|split].
    + by rewrite Hlog', Hlog, app_assoc.
    + rewrite length_app. simpl. lia.
    + rewrite fmap_app, Hsteps, seqZ_S. simpl. by rewrite He, Hs.
Qed.

Lemma iterate_finished_at n c c' :
  iterate graph tools n c = Some c' →
  RunRecord.finished_at (c_run c') = RunRecord.finished_at (c_run c) ∧
  RunRecord.id (c_run c') = RunRecord.id (c_run c) ∧
  RunRecord.graph_id (c_run c') = RunRecord.graph_id (c_run c) ∧
  RunRecord.started_at (c_run c') = RunRecord.started_at (c_run c).
Proof.
  revert c. induction n as [|n IH]; intros c.
  - by intros [= <-].
  - intros (k & c1 & _ & Hb & Hn)%iterate_S.
    destruct (IH _ Hn) as (-> & -> & -> & ->).
    by apply loop_body_inr in Hb
      as (nd & b & h1 & ov & h2 & a & h3 & _ & _ & _ & _ & ->).
Qed.

End loop.

(** ** The [while] loop *)

Section while_loop.
Context (graph : GraphDef.t) (tools : gmap string ToolFn).

Implicit Types (c : Config) (n fuel : nat) (max_steps : Z).

Lemma loop_cond_Some max_steps c current :
  loop_cond max_steps c = Some current ↔
  RunRecord.current_node (c_run c) = Some current ∧ c_step c < max_steps.
Proof.
  unfold loop_cond.
  destruct (RunRecord.current_node (c_run c)) as [k|];
    [|by split; [|intros []]].
  destruct (Z.ltb_spec (c_step c) max_steps) as [Hlt|Hge]; split.
  - by intros [= ->].
  - by intros [[= ->] _].
  - done.
  - intros [_ ?]. lia.
Qed.

Lemma loop_cond_None max_steps c :
  loop_cond max_steps c = None ↔
  RunRecord.current_node (c_run c) = None ∨ max_steps ≤ c_step c.
Proof.
  unfold loop_cond.
  destruct (RunRecord.current_node (c_run c)) as [k|]; [|by split; [left|]].
  destruct (Z.ltb_spec (c_step c) max_steps) as [Hlt|Hge]; split.
  - done.
  - intros [[=]|?]. lia.
  - by right.
  - done.
Qed.

(** The distance of the counter from the ceiling bounds the number of
    iterations still to come. *)
Lemma while_loop_fuel fuel max_steps c :
  (Z.to_nat (max_steps - c_step c) ≤ fuel)%nat →
  while_loop fuel graph tools max_steps c ≠ OutOfFuel.
Proof.
  revert c. induction fuel as [|fuel IH]; intros c Hfuel; simpl.
  - destruct (loop_cond max_steps c) eqn:Hc; [|done].
    apply loop_cond_Some in Hc as [_ ?]. lia.
  - destruct (loop_cond max_steps c) as [k|] eqn:Hc; [|done].
    destruct (loop_body graph tools k c) as [[e c']|c'] eqn:Hb; [done|].
    apply IH. apply loop_body_run in Hb as [Hs _].
    apply loop_cond_Some in Hc. lia.
Qed.

Lemma while_loop_exit_inv fuel max_steps c c' :
  while_loop fuel graph tools max_steps c = LoopExit c' →
  ∃ n, iterate graph tools n c = Some c' ∧
       loop_cond max_steps c' = None ∧
       Z.of_nat n ≤ Z.max 0 (max_steps - c_step c).
Proof.
  revert c. induction fuel as [|fuel IH]; intros c; simpl.
  - destruct (loop_cond max_steps c) eqn:Hc; [done|].
    intros [= <-]. exists 0%nat. split_and!; [done|done|lia].
  - destruct (loop_cond max_steps c) as [k|] eqn:Hc.
    + destruct (loop_body graph tools k c) as [[e c1]|c1] eqn:Hb; [done|].
      intros (n & Hn & Hexit & Hle)%IH.
      apply loop_cond_Some in Hc as [Hk Hlt].
      exists (S n). split_and!; [|done|].
      * apply iterate_S. eauto.
      * apply loop_body_run in Hb as [Hs _]. lia.
    + intros [= <-]. exists 0%nat. split_and!; [done|done|lia].
Qed.

Lemma while_loop_exit fuel max_steps n c c' :
  iterate graph tools n c = Some c' →
  loop_cond max_steps c' = None →
  Z.of_nat n ≤ Z.max 0 (max_steps - c_step c) →
  (n ≤ fuel)%nat →
  while_loop fuel graph tools max_steps c = LoopExit c'.
Proof.
  revert c fuel. induction n as [|n IH]; intros c fuel.
  - intros [= <-] Hc _ _. destruct fuel; simpl; by rewrite Hc.
  - intros (k & c1 & Hk & Hb & Hn)%iterate_S Hc Hle Hfuel.
    destruct fuel as [|fuel]; [lia|]. simpl.
    assert (loop_cond max_steps c = Some k) as ->
      by (apply loop_cond_Some; split; [done|lia]).
    rewrite Hb. apply (IH c1); [done|done| |lia].
    apply loop_body_run in Hb as [Hs _]. lia.
Qed.

Lemma while_loop_raise_inv fuel max_steps c e c'' :
  while_loop fuel graph tools max_steps c = LoopRaise e c'' →
  ∃ n c' current,
    iterate graph tools n c = Some c' ∧
    loop_cond max_steps c' = Some current ∧
    loop_body graph tools current c' = inl (e, c'').
Proof.
  revert c. induction fuel as [|fuel IH]; intros c; simpl.
  - by destruct (loop_cond max_steps c).
  - destruct (loop_cond max_steps c) as [k|] eqn:Hc; [|done].
    destruct (loop_body graph tools k c) as [[e1 c1]|c1] eqn:Hb.
    + intros [= <- <-]. exists 0%nat, c, k. by rewrite Hb.
    + intros (n & c' & k' & Hn & Hc' & Hb')%IH.
      apply loop_cond_Some in Hc as [Hk Hlt].
      exists (S n), c', k'. split_and!; [|done|done].
      apply iterate_S. eauto.
Qed.

Lemma while_loop_raise fuel max_steps n c c' current e c'' :
  iterate graph tools n c = Some c' →
  loop_cond max_steps c' = Some current →
  loop_body graph tools current c' = inl (e, c'') →
  (n < fuel)%nat →
  while_loop fuel graph tools max_steps c = LoopRaise e c''.
Proof.
  revert c fuel. induction n as [|n IH]; intros c fuel.
  - intros [= <-] Hc Hb Hfuel. destruct fuel as [|fuel]; [lia|].
    simpl. by rewrite Hc, Hb.
  - intros Hit Hc Hb' Hfuel.
    pose proof (iterate_run _ _ _ _ _ Hit) as (Hstep & _).
    apply iterate_S in Hit as (k & c1 & Hk & Hb & Hn).
    destruct fuel as [|fuel]; [lia|]. simpl.
    pose proof Hc as [_ Hlt]%loop_cond_Some.
    assert (loop_cond max_steps c = Some k) as ->
      by (apply loop_cond_Some; split; [done|lia]).
    rewrite Hb. apply (IH c1); [done|done|done|lia].
Qed.

End while_loop.

(** ** [run_graph] in terms of the iterated body *)

Lemma store_run_twice self run_id run1 run2 :
  store_run (store_run self run_id run1) run_id run2
    = store_run self run_id run2.
Proof.
  unfold store_run, Engine.set_runs. simpl. by rewrite insert_insert_eq.
Qed.

Lemma store_run_lookup self run_id run :
  Engine.runs (store_run self run_id run) !! run_id = Some run.
Proof. apply lookup_insert_eq. Qed.

Lemma store_run_graphs self run_id run :
  Engine.graphs (store_run self run_id run) = Engine.graphs self.
Proof. done. Qed.

Section run_graph.
Context (self : Engine.t) (run_id : string) (t_start t_end : timestamp).
Context (graph_id : string) (graph : GraphDef.t).
Context (initial_state : option loc) (d : gmap string value) (h : Heap).
Hypothesis registered : Engine.graphs self !! graph_id = Some graph.
Hypothesis bindings : initial_bindings initial_state h = Some d.

Let tools := ToolRegistry.all (Engine.tools_registry self).
Let c0 := initial_config run_id graph_id graph t_start d h.

Lemma run_graph_unfold max_steps :
  run_graph self run_id t_start t_end graph_id initial_state max_steps h =
  match while_loop (Z.to_nat max_steps) graph tools max_steps c0 with
  | LoopExit c =>
      RunReturn (RunRecord.finish (c_run c) t_end)
        (store_run self run_id (RunRecord.finish (c_run c) t_end)) (c_heap c)
  | LoopRaise e c => RunRaise e (store_run self run_id (c_run c)) (c_heap c)
  | OutOfFuel => RunOutOfFuel
  end.
Proof.
  unfold run_graph, run_graph_fuel. rewrite registered, bindings. simpl.
  fold tools c0. unfold c0, initial_config, new_run.
  destruct (while_loop _ _ _ _ _); by rewrite ?store_run_twice.
Qed.

Lemma run_graph_return_inv max_steps run self' h' :
  run_graph self run_id t_start t_end graph_id initial_state max_steps h
    = RunReturn run self' h' →
  ∃ n c, iterate graph tools n c0 = Some c ∧
         loop_cond max_steps c = None ∧
         Z.of_nat n ≤ Z.max 0 max_steps ∧
         run = RunRecord.finish (c_run c) t_end ∧
         self' = store_run self run_id run ∧
         h' = c_heap c.
Proof.
  rewrite run_graph_unfold.
  destruct (while_loop _ _ _ _ _) as [c|e c|] eqn:Hw; [|done|done].
  intros [= <- <- <-].
  apply while_loop_exit_inv in Hw as (n & Hn & Hc & Hle).
  exists n, c. split_and!; try done. simpl in Hle. lia.
Qed.

Lemma run_graph_return max_steps n c :
  iterate graph tools n c0 = Some c →
  loop_cond max_steps c = None →
  Z.of_nat n ≤ Z.max 0 max_steps →
  run_graph self run_id t_start t_end graph_id initial_state max_steps h
    = RunReturn (RunRecord.finish (c_run c) t_end)
        (store_run self run_id (RunRecord.finish (c_run c) t_end)) (c_heap c).
Proof.
  intros Hn Hc Hle. rewrite run_graph_unfold.
  rewrite (while_loop_exit graph tools _ max_steps n c0 c); try done.
  - simpl. lia.
  - lia.
Qed.

Lemma run_graph_raise_inv max_steps e self' h' :
  run_graph self run_id t_start t_end graph_id initial_state max_steps h
    = RunRaise e self' h' →
  ∃ n c current c',
    iterate graph tools n c0 = Some c ∧
    loop_cond max_steps c = Some current ∧
    loop_body graph tools current c = inl (e, c') ∧
    self' = store_run self run_id (c_run c') ∧
    h' = c_heap c'.
Proof.
  rewrite run_graph_unfold.
  destruct (while_loop _ _ _ _ _) as [c|e' c'|] eqn:Hw; [done| |done].
  intros [= <- <- <-].
  apply while_loop_raise_inv in Hw as (n & c & k & Hn & Hc & Hb).
  exists n, c, k, c'. done.
Qed.

Lemma run_graph_raise max_steps n c current e c' :
  iterate graph tools n c0 = Some c →
  loop_cond max_steps c = Some current →
  loop_body graph tools current c = inl (e, c') →
  run_graph self run_id t_start t_end graph_id initial_state max_steps h
    = RunRaise e (store_run self run_id (c_run c')) (c_heap c').
Proof.
  intros Hn Hc Hb. rewrite run_graph_unfold.
  rewrite (while_loop_raise graph tools _ max_steps n c0 c current e c');
    try done.
  apply iterate_run in Hn as (Hs & _). apply loop_cond_Some in Hc as [_ Hlt].
  simpl in Hs. lia.
Qed.

Lemma run_graph_fuel_enough max_steps :
  run_graph self run_id t_start t_end graph_id initial_state max_steps h
    ≠ RunOutOfFuel.
Proof.
  rewrite run_graph_unfold.
  pose proof (while_loop_fuel graph tools (Z.to_nat max_steps) max_steps c0)
    as Hw.
  destruct (while_loop _ _ _ _ _); [done|done|].
  exfalso. apply Hw; [|done]. simpl. lia.
Qed.

(** A run capped at the number of iterations completed so far ends in the
    configuration reached by them. *)
Lemma run_graph_prefix n c :
  iterate graph tools n c0 = Some c →
  run_graph self run_id t_start t_end graph_id initial_state (Z.of_nat n) h
    = RunReturn (RunRecord.finish (c_run c) t_end)
        (store_run self run_id (RunRecord.finish (c_run c) t_end)) (c_heap c).
Proof.
  intros Hn. apply (run_graph_return _ n); [done| |lia].
  apply loop_cond_None. right.
  apply iterate_run in Hn as (Hs & _). simpl in Hs. lia.
Qed.

(** Whatever way the call ends, the run object it leaves is the one of a
    configuration reached by completed iterations, as many as the log has
    entries. *)
Lemma run_graph_recorded max_steps run :
  recorded_run run_id
    (run_graph self run_id t_start t_end graph_id initial_state max_steps h)
    = Some run →
  ∃ c, iterate graph tools (length (RunRecord.log run)) c0 = Some c ∧
       Z.of_nat (length (RunRecord.log run)) ≤ Z.max 0 max_steps ∧
       RunRecord.log run = RunRecord.log (c_run c) ∧
       RunRecord.current_node run = RunRecord.current_node (c_run c) ∧
       RunRecord.state run = RunRecord.state (c_run c).
Proof.
  destruct (run_graph _ _ _ _ _ _ _ _) as [run' self' h'|e self' h'|] eqn:Hr;
    simpl; [| |done].
  - intros [= ->].
    apply run_graph_return_inv in Hr as (n & c & Hn & _ & Hle & -> & _ & _).
    pose proof (iterate_run _ _ _ _ _ Hn) as (_ & _ & _ & es & Hlog & Hlen & _).
    simpl in *. rewrite Hlog. simpl. rewrite Hlen. rewrite <- Hlog. eauto 10.
  - apply run_graph_raise_inv in Hr
      as (n & c & k & c' & Hn & Hc & Hb & -> & _).
    rewrite store_run_lookup. intros [= <-].
    apply loop_body_inl in Hb as [-> _].
    pose proof (iterate_run _ _ _ _ _ Hn) as (Hs & _ & _ & es & Hlog & Hlen & _).
    apply loop_cond_Some in Hc as [_ Hlt].
    simpl in *. rewrite Hlog. simpl. rewrite Hlen. rewrite <- Hlog.
    exists c. split_and!; try done. lia.
Qed.

End run_graph.

(** ** Allocation *)

Lemma max_list_ge (ls : list loc) (l : loc) :
  l ∈ ls → (l ≤ max_list ls)%nat.
Proof.
  induction 1 as [l ls|l l' ls _ IH]; simpl; lia.
Qed.

Lemma fresh_loc_gt_dom (h : Heap) (l : loc) (o : obj) :
  h !! l = Some o → (l < fresh_loc h)%nat.
Proof.
  intros Hl. unfold fresh_loc. apply Nat.lt_succ_r, max_list_ge.
  apply elem_of_app. left. apply list_elem_of_fmap.
  exists (l, o). split; [done|]. by apply elem_of_map_to_list.
Qed.

Lemma fresh_loc_gt_refs (h : Heap) (l l' : loc) (o : obj) :
  h !! l = Some o → l' ∈ obj_refs o → (l' < fresh_loc h)%nat.
Proof.
  intros Hl Hl'. unfold fresh_loc. apply Nat.lt_succ_r, max_list_ge.
  apply elem_of_app. right. apply list_elem_of_bind.
  exists o. split; [done|]. apply list_elem_of_fmap.
  exists (l, o). split; [done|]. by apply elem_of_map_to_list.
Qed.

Lemma fresh_loc_None (h : Heap) : h !! fresh_loc h = None.
Proof.
  destruct (h !! fresh_loc h) as [o|] eqn:Hl; [|done].
  apply fresh_loc_gt_dom in Hl. lia.
Qed.

Lemma get_dict_Some (h : Heap) (l : loc) (d : gmap string value) :
  get_dict h l = Some d ↔ h !! l = Some (ODict d).
Proof.
  unfold get_dict. destruct (h !! l) as [[d'|xs]|]; naive_solver.
Qed.

Lemma get_dict_fresh (h : Heap) (l : loc) (o : obj) :
  is_Some (h !! l) → get_dict (<[fresh_loc h := o]> h) l = get_dict h l.
Proof.
  intros [o' Hl]. unfold get_dict. rewrite lookup_insert_ne; [done|].
  intros E. rewrite <- E, fresh_loc_None in Hl. done.
Qed.

Lemma dict_copy_Some (h h' : Heap) (l l' : loc) :
  dict_copy h l = Some (l', h') ↔
  ∃ d, h !! l = Some (ODict d) ∧ l' = fresh_loc h ∧
       h' = <[fresh_loc h := ODict d]> h.
Proof.
  unfold dict_copy, alloc. split.
  - destruct (get_dict h l) as [d|] eqn:Hd; [|done].
    apply get_dict_Some in Hd. intros [= <- <-]. eauto.
  - intros (d & Hd & -> & ->). apply get_dict_Some in Hd. by rewrite Hd.
Qed.

(** ** The self-loop graph *)

Lemma self_loop_body tools c d :
  get_dict (c_heap c) (RunRecord.state (c_run c)) = Some d →
  ∃ c', loop_body self_loop_graph tools "extract" c = inr c' ∧
        RunRecord.current_node (c_run c') = Some "extract" ∧
        get_dict (c_heap c') (RunRecord.state (c_run c')) = Some d.
Proof.
  intros Hd.
  assert (is_Some (c_heap c !! RunRecord.state (c_run c))) as Hst
    by (apply get_dict_Some in Hd; eauto).
  assert (get_dict (<[fresh_loc (c_heap c) := ODict d]> (c_heap c))
            (RunRecord.state (c_run c)) = Some d) as Hd1
    by by rewrite get_dict_fresh.
  unfold loop_body, dict_copy, alloc. simpl.
  rewrite Hd, lookup_singleton_eq. simpl. unfold always_extract.
  rewrite Hd1. eexists. split; [done|]. simpl. split; [done|].
  rewrite get_dict_fresh; [done|]. apply get_dict_Some in Hd1. eauto.
Qed.

Lemma self_loop_iterate tools run_id graph_id t_start d (h : Heap) n :
  ∃ c, iterate self_loop_graph tools n
         (initial_config run_id graph_id self_loop_graph t_start d h)
       = Some c ∧
       RunRecord.current_node (c_run c) = Some "extract" ∧
       get_dict (c_heap c) (RunRecord.state (c_run c)) = Some d.
Proof.
  induction n as [|n (c & Hn & Hcur & Hd)].
  - eexists. split_and!; [done|done|]. simpl.
    apply get_dict_Some, lookup_insert_eq.
  - destruct (self_loop_body tools c d Hd) as (c' & Hb & Hcur' & Hd').
    exists c'. split_and!; [|done|done].
    apply iterate_snoc. eauto.
Qed.

(** ** Resolving node functions *)

Section resolve_nodes.
Context (registry : NodeRegistry.t).

Lemma resolve_nodes_unknown pre node_name fn_name post nodes :
  Forall (registered registry) pre →
  NodeRegistry.nodes registry !! fn_name = None →
  resolve_nodes registry (pre ++ (node_name, fn_name) :: post) nodes
    = inl (KeyError fn_name).
Proof.
  intros Hpre Hfn. revert nodes.
  induction Hpre as [|[k f] pre [fn Hf] _ IH]; intros nodes; simpl.
  - unfold NodeRegistry.get. by rewrite Hfn.
  - unfold NodeRegistry.get. simpl in Hf. rewrite Hf. apply IH.
Qed.

Lemma resolve_nodes_known items nodes :
  Forall (registered registry) items →
  ∃ nodes', resolve_nodes registry items nodes = inr nodes' ∧
            ∀ k, is_Some (nodes' !! k) ↔ is_Some (nodes !! k) ∨ k ∈ items.*1.
Proof.
  intros Hall. revert nodes.
  induction Hall as [|[k f] items [fn Hf] _ IH]; intros nodes; simpl.
  - exists nodes. split; [done|]. intros k. rewrite elem_of_nil. tauto.
  - unfold NodeRegistry.get. simpl in Hf. rewrite Hf.
    destruct (IH (<[k := {| NodeDef.name := k; NodeDef.func := fn;
                             NodeDef.description := "" |}]> nodes))
      as (nodes' & -> & Hdom).
    exists nodes'. split; [done|]. intros k'.
    rewrite Hdom, lookup_insert_is_Some', elem_of_cons. simpl.
    intuition (auto; congruence).
Qed.

Lemma first_unregistered items :
  Exists (λ p, NodeRegistry.nodes registry !! p.2 = None) items →
  ∃ pre node_name fn_name post,
    items = pre ++ (node_name, fn_name) :: post ∧
    Forall (registered registry) pre ∧
    NodeRegistry.nodes registry !! fn_name = None.
Proof.
  induction items as [|[k f] items IH]; [by intros ?%Exists_nil|].
  intros Hex.
  destruct (NodeRegistry.nodes registry !! f) as [fn|] eqn:Hf.
  - apply Exists_cons in Hex as [Hex|Hex]; [simpl in Hex; congruence|].
    destruct (IH Hex) as (pre & k' & f' & post & -> & Hpre & Hf').
    exists ((k, f) :: pre), k', f', post. split_and!; [done| |done].
    constructor; [|done]. unfold registered. simpl. by rewrite Hf.
  - exists [], k, f, items. by split_and!.
Qed.

End resolve_nodes.

(** ** The current node stays inside a well-formed graph *)

Section valid_current_node.
Context (graph : GraphDef.t) (tools : gmap string ToolFn).
Hypothesis wf : well_formed graph.
Hypothesis valid : overrides_valid graph.

Lemma loop_body_valid current c c' :
  loop_body graph tools current c = inr c' →
  valid_current_node graph (RunRecord.current_node (c_run c')).
Proof.
  intros (nd & b & h1 & ov & h2 & a & h3 & Hnd & _ & Hf & _ & ->)
    %loop_body_inr.
  simpl. destruct ov as [n|]; simpl.
  - by eapply valid.
  - unfold GraphDef.edges_get.
    destruct (GraphDef.edges graph !! NodeDef.name nd) as [[t|]|] eqn:He;
      [|done|done].
    simpl. by eapply (proj2 wf).
Qed.

Lemma iterate_valid n c c' :
  valid_current_node graph (RunRecord.current_node (c_run c)) →
  iterate graph tools n c = Some c' →
  valid_current_node graph (RunRecord.current_node (c_run c')).
Proof.
  destruct n as [|n]; [by intros ? [= <-]|].
  intros _ (k & c1 & _ & _ & Hb)%iterate_snoc. by eapply loop_body_valid.
Qed.

End valid_current_node.

Lemma self_loop_well_formed : well_formed self_loop_graph.
Proof.
  split; [by eexists|]. intros k target.
  unfold self_loop_graph. simpl.
  by intros [_ [=]]%lookup_singleton_Some.
Qed.

Lemma self_loop_overrides_valid : overrides_valid self_loop_graph.
Proof.
  intros k nd state tools h h' n.
  unfold self_loop_graph. simpl.
  intros [_ <-]%lookup_singleton_Some. simpl. unfold always_extract.
  intros [= <- _]. by eexists.
Qed.

(** ** Reachability and allocation *)

Lemma obj_refs_dict (d : gmap string value) (l : loc) :
  l ∈ obj_refs (ODict d) ↔ ∃ k, d !! k = Some (VRef l).
Proof.
  unfold obj_refs. simpl. rewrite list_elem_of_bind. split.
  - intros (v & Hl & Hv). apply list_elem_of_fmap in Hv as ([k v'] & -> & Hkv).
    apply elem_of_map_to_list in Hkv. simpl in Hl.
    destruct v'; try by apply elem_of_nil in Hl.
    apply list_elem_of_singleton in Hl as ->. eauto.
  - intros (k & Hk). exists (VRef l). split; [by apply list_elem_of_singleton|].
    apply list_elem_of_fmap. exists (k, VRef l).
    split; [done|]. by apply elem_of_map_to_list.
Qed.

Lemma reach_lt_fresh (h : Heap) (s x : loc) :
  (s < fresh_loc h)%nat → reach h s x → (x < fresh_loc h)%nat.
Proof.
  intros Hs Hreach. apply rtc_inv_r in Hreach as [<-|(y & _ & o & Hy & Hx)].
  - done.
  - by eapply fresh_loc_gt_refs.
Qed.

(** A new object does not bring anything within reach of the old ones. *)
Lemma reach_alloc (h : Heap) (o : obj) (s x : loc) :
  (s < fresh_loc h)%nat →
  reach (<[fresh_loc h := o]> h) s x → reach h s x.
Proof.
  intros Hs Hreach. unfold reach in *.
  revert x Hreach. apply rtc_ind_r; [apply rtc_refl|].
  intros x y Hsx Hxy IH.
  - eapply rtc_r; [exact IH|].
    destruct Hxy as (o' & Hx & Hy). exists o'. split; [|done].
    rewrite lookup_insert_ne in Hx; [done|].
    pose proof (reach_lt_fresh h s x Hs IH). lia.
Qed.

Lemma alloc_unreachable (h : Heap) (o : obj) (s : loc) :
  (s < fresh_loc h)%nat →
  ¬ reach (<[fresh_loc h := o]> h) s (fresh_loc h).
Proof.
  intros Hs Hreach%reach_alloc; [|done].
  pose proof (reach_lt_fresh h s _ Hs Hreach). lia.
Qed.

Lemma alloc_lookup (h : Heap) (o : obj) (l : loc) :
  is_Some (h !! l) → <[fresh_loc h := o]> h !! l = h !! l.
Proof.
  intros [o' Hl]. apply lookup_insert_ne.
  apply fresh_loc_gt_dom in Hl. lia.
Qed.

(** Allocation keeps an object as it is and out of reach. *)
Lemma alloc_frame (h : Heap) (o : obj) (s l : loc) :
  is_Some (h !! s) → is_Some (h !! l) → ¬ reach h s l →
  <[fresh_loc h := o]> h !! l = h !! l ∧
  ¬ reach (<[fresh_loc h := o]> h) s l.
Proof.
  intros [os Hs] Hl Hreach. split; [by apply alloc_lookup|].
  intros Hreach'. apply Hreach. eapply reach_alloc; [|done].
  by eapply fresh_loc_gt_dom.
Qed.

(** ** The frame of a run: objects out of reach of the state *)

Section frame.
Context (graph : GraphDef.t) (tools : gmap string ToolFn).
Hypothesis nodes_confined : confined_graph graph.

Implicit Types (c : Config) (l : loc).

Lemma loop_body_frame current c c' l :
  loop_body graph tools current c = inr c' →
  outside c l →
  c_heap c' !! l = c_heap c !! l ∧ outside c' l.
Proof.
  intros (nd & b & h1 & ov & h2 & a & h3 & Hnd & Hb & Hf & Ha & ->)
    %loop_body_inr [Hl Hout].
  apply dict_copy_Some in Hb as (d1 & Hs1 & -> & ->).
  apply dict_copy_Some in Ha as (d2 & Hs2 & -> & ->).
  unfold outside. simpl.
  destruct (alloc_frame (c_heap c) (ODict d1) (RunRecord.state (c_run c)) l)
    as [E1 Hout1]; [by eauto|done|done|].
  destruct (nodes_confined _ _ Hnd (RunRecord.state (c_run c)) tools
              (<[fresh_loc (c_heap c) := ODict d1]> (c_heap c)) l)
    as [E2 Hout2]; [by rewrite E1|done|].
  rewrite Hf in E2, Hout2. simpl in E2, Hout2.
  destruct (alloc_frame h2 (ODict d2) (RunRecord.state (c_run c)) l)
    as [E3 Hout3]; [by eauto|by rewrite E2, E1|done|].
  split; [congruence|]. split; [|done]. by rewrite E3, E2, E1.
Qed.

Lemma loop_body_inl_frame current c c' e l :
  loop_body graph tools current c = inl (e, c') →
  outside c l →
  c_heap c' !! l = c_heap c !! l.
Proof.
  unfold loop_body. intros Hb [Hl Hout].
  destruct (GraphDef.nodes graph !! current) as [nd|] eqn:Hnd;
    [|by injection Hb as _ <-].
  destruct (dict_copy _ _) as [[b h1]|] eqn:Hbefore;
    [|by injection Hb as _ <-].
  apply dict_copy_Some in Hbefore as (d1 & Hs1 & -> & ->).
  destruct (alloc_frame (c_heap c) (ODict d1) (RunRecord.state (c_run c)) l)
    as [E1 Hout1]; [by eauto|done|done|].
  destruct (nodes_confined _ _ Hnd (RunRecord.state (c_run c)) tools
              (<[fresh_loc (c_heap c) := ODict d1]> (c_heap c)) l)
    as [E2 _]; [by rewrite E1|done|].
  destruct (NodeDef.func nd _ _ _) as [ov h2|e' h2]; simpl in E2.
  - destruct (dict_copy h2 _) as [[a h3]|]; [by destruct ov|].
    injection Hb as _ <-. simpl. congruence.
  - injection Hb as _ <-. simpl. congruence.
Qed.

Lemma iterate_frame n c c' l :
  iterate graph tools n c = Some c' →
  outside c l →
  c_heap c' !! l = c_heap c !! l ∧ outside c' l.
Proof.
  revert c. induction n as [|n IH]; intros c.
  - by intros [= <-].
  - intros (k & c1 & _ & Hb & Hn)%iterate_S Hout.
    destruct (loop_body_frame _ _ _ _ Hb Hout) as [E1 Hout1].
    destruct (IH _ Hn Hout1) as [E2 Hout2]. split; [congruence|done].
Qed.

(** The two snapshots of a step are new dicts holding the bindings of the
    state before and after the node ran, and they are out of reach. *)
Lemma loop_body_snapshots current c c' :
  loop_body graph tools current c = inr c' →
  ∃ e, RunRecord.log (c_run c') = RunRecord.log (c_run c) ++ [e] ∧
       get_dict (c_heap c') (LogEntry.before e)
         = get_dict (c_heap c) (RunRecord.state (c_run c)) ∧
       get_dict (c_heap c') (LogEntry.after e)
         = get_dict (c_heap c') (RunRecord.state (c_run c')) ∧
       is_Some (get_dict (c_heap c') (LogEntry.before e)) ∧
       is_Some (get_dict (c_heap c') (LogEntry.after e)) ∧
       c_heap c !! LogEntry.before e = None ∧
       LogEntry.before e ≠ LogEntry.after e ∧
       outside c' (LogEntry.before e) ∧
       outside c' (LogEntry.after e).
Proof.
  intros (nd & b & h1 & ov & h2 & a & h3 & Hnd & Hb & Hf & Ha & ->)
    %loop_body_inr.
  apply dict_copy_Some in Hb as (d1 & Hs1 & -> & ->).
  apply dict_copy_Some in Ha as (d2 & Hs2 & -> & ->).
  eexists. split; [done|]. unfold outside. simpl.
  set (s := RunRecord.state (c_run c)) in *.
  set (h := c_heap c) in *.
  set (h1 := <[fresh_loc h := ODict d1]> h) in *.
  assert (s < fresh_loc h)%nat as Hlt by by eapply fresh_loc_gt_dom.
  assert (h1 !! fresh_loc h = Some (ODict d1)) as Hb1
    by apply lookup_insert_eq.
  destruct (nodes_confined _ _ Hnd s tools h1 (fresh_loc h)) as [E2 Hout2];
    [by eauto|by apply alloc_unreachable|].
  rewrite Hf in E2, Hout2. simpl in E2, Hout2. rewrite Hb1 in E2.
  assert (s < fresh_loc h2)%nat as Hlt2 by by eapply fresh_loc_gt_dom.
  assert (fresh_loc h < fresh_loc h2)%nat as Hlt3
    by by eapply fresh_loc_gt_dom.
  assert (<[fresh_loc h2 := ODict d2]> h2 !! fresh_loc h = Some (ODict d1))
    as Hb3 by (rewrite lookup_insert_ne by lia; done).
  assert (<[fresh_loc h2 := ODict d2]> h2 !! s = Some (ODict d2))
    as Hs3 by (rewrite lookup_insert_ne by lia; done).
  split_and!.
  - unfold get_dict. by rewrite Hb3, Hs1.
  - unfold get_dict. by rewrite lookup_insert_eq, Hs3.
  - unfold get_dict. by rewrite Hb3.
  - unfold get_dict. by rewrite lookup_insert_eq.
  - apply fresh_loc_None.
  - lia.
  - by rewrite Hb3.
  - intros Hr. apply Hout2. by eapply reach_alloc.
  - by rewrite lookup_insert_eq.
  - by apply alloc_unreachable.
Qed.

End frame.

(** ** The step behind a log entry *)

Lemma iterate_entry graph tools n c0 c (i : nat) e :
  RunRecord.log (c_run c0) = [] →
  iterate graph tools n c0 = Some c →
  RunRecord.log (c_run c) !! i = Some e →
  ∃ c_i current c_j,
    iterate graph tools i c0 = Some c_i ∧
    RunRecord.current_node (c_run c_i) = Some current ∧
    loop_body graph tools current c_i = inr c_j ∧
    iterate graph tools (n - S i) c_j = Some c ∧
    RunRecord.log (c_run c_j) = RunRecord.log (c_run c_i) ++ [e].
Proof.
  intros Hnil Hn Hi.
  pose proof (iterate_run _ _ _ _ _ Hn) as (_ & _ & _ & es & Hlog & Hlen & _).
  rewrite Hnil in Hlog. simpl in Hlog.
  pose proof (lookup_lt_Some _ _ _ Hi) as Hlt. rewrite Hlog, Hlen in Hlt.
  replace n with (S i + (n - S i))%nat in Hn by lia.
  apply iterate_split in Hn as (c_j & Hj & Hrest).
  apply iterate_snoc in Hj as (k & c_i & Hci & Hk & Hb).
  exists c_i, k, c_j. split_and!; try done.
  pose proof (iterate_run _ _ _ _ _ Hci)
    as (_ & _ & _ & es1 & Hlog1 & Hlen1 & _).
  pose proof (iterate_run _ _ _ _ _ Hrest) as (_ & _ & _ & es2 & Hlog2 & _).
  pose proof (loop_body_run _ _ _ _ _ Hb) as (_ & _ & _ & e' & Hlog' & _).
  rewrite Hnil in Hlog1. simpl in Hlog1.
  rewrite Hlog2, Hlog', <- app_assoc, Hlog1 in Hi.
  rewrite lookup_app_r in Hi by lia.
  rewrite Hlen1, Nat.sub_diag in Hi. injection Hi as <-. done.
Qed.

(** ** [run_graph] and the frame *)

Section run_graph_frame.
Context (self : Engine.t) (run_id : string) (t_start t_end : timestamp).
Context (graph_id : string) (graph : GraphDef.t).
Context (initial_state : option loc) (d : gmap string value) (h : Heap).
Hypothesis registered : Engine.graphs self !! graph_id = Some graph.
Hypothesis bindings : initial_bindings initial_state h = Some d.
Hypothesis nodes_confined : confined_graph graph.

Let tools := ToolRegistry.all (Engine.tools_registry self).
Let c0 := initial_config run_id graph_id graph t_start d h.

Lemma run_graph_recorded_heap max_steps run h_fin :
  recorded_run run_id
    (run_graph self run_id t_start t_end graph_id initial_state max_steps h)
    = Some run →
  result_heap
    (run_graph self run_id t_start t_end graph_id initial_state max_steps h)
    = Some h_fin →
  ∃ c, iterate graph tools (length (RunRecord.log run)) c0 = Some c ∧
       RunRecord.log run = RunRecord.log (c_run c) ∧
       RunRecord.state run = RunRecord.state (c_run c) ∧
       ∀ l, outside c l → h_fin !! l = c_heap c !! l.
Proof.
  intros Hrec Hheap.
  destruct (run_graph_recorded _ _ _ t_end _ _ _ _ _ registered bindings _ _
              Hrec) as (c & Hn & _ & Hlog & _ & Hst).
  fold tools c0 in Hn. exists c. split_and!; [done|done|done|].
  intros l Hout.
  destruct (run_graph _ _ _ _ _ _ _ _) as [run' self' h'|e self' h'|] eqn:Hr;
    [| |done]; simpl in Hheap; injection Hheap as ->.
  - destruct (run_graph_return_inv _ _ _ _ _ _ _ _ _ registered bindings
                _ _ _ _ Hr) as (n & c1 & Hn1 & _ & _ & -> & _ & ->).
    fold tools c0 in Hn1.
    pose proof (iterate_run _ _ _ _ _ Hn1)
      as (_ & _ & _ & es & Hlog1 & Hlen1 & _).
    simpl in Hrec. injection Hrec as <-. simpl in Hn.
    rewrite Hlog1 in Hn. simpl in Hn. rewrite Hlen1 in Hn. congruence.
  - destruct (run_graph_raise_inv _ _ _ _ _ _ _ _ _ registered bindings
                _ _ _ _ Hr) as (n & c1 & k & c' & Hn1 & _ & Hb & -> & ->).
    fold tools c0 in Hn1.
    pose proof (iterate_run _ _ _ _ _ Hn1)
      as (_ & _ & _ & es & Hlog1 & Hlen1 & _).
    cbn [recorded_run] in Hrec. rewrite store_run_lookup in Hrec.
    injection Hrec as <-.
    pose proof (loop_body_inl _ _ _ _ _ _ Hb) as [Hrun _].
    rewrite Hrun, Hlog1 in Hn. simpl in Hn. rewrite Hlen1 in Hn.
    assert (c1 = c) as -> by congruence.
    by eapply loop_body_inl_frame.
Qed.

End run_graph_frame.

(** The state that [run_graph] creates does not reach the caller's dict,
    unless that dict can be reached from its own values. *)
Lemma initial_state_outside (h : Heap) (l0 : loc) (d : gmap string value) :
  h !! l0 = Some (ODict d) →
  (∀ l', l' ∈ obj_refs (ODict d) → ¬ reach h l' l0) →
  ¬ reach (<[fresh_loc h := ODict d]> h) (fresh_loc h) l0.
Proof.
  intros Hl0 Hacyclic Hreach.
  apply rtc_inv in Hreach as [E|(l' & (o & Ho & Hl') & Hrest)].
  - apply fresh_loc_gt_dom in Hl0. lia.
  - rewrite lookup_insert_eq in Ho. injection Ho as <-.
    apply (Hacyclic l' Hl'). eapply reach_alloc; [|exact Hrest].
    by eapply fresh_loc_gt_refs.
Qed.

(** ** The appending node *)

Lemma append_item_confined : confined append_item.
Proof.
  intros state tools h l Hl Hout. unfold append_item.
  destruct (get_dict h state) as [d|] eqn:Hd; [|done].
  apply get_dict_Some in Hd.
  destruct (d !! "items") as [[| | | |li]|] eqn:Hitems; try done.
  destruct (h !! li) as [[d'|xs]|] eqn:Hli; try done.
  simpl.
  assert (l ≠ li) as Hne.
  { intros ->. apply Hout. apply rtc_once. exists (ODict d).
    split; [done|]. apply obj_refs_dict. eauto. }
  split; [by apply lookup_insert_ne|].
  intros Hreach. apply Hout. revert Hreach. apply rtc_subrel.
  intros x y (o & Hx & Hy).
  destruct (decide (x = li)) as [->|Hx'].
  - rewrite lookup_insert_eq in Hx. injection Hx as <-.
    exists (OList xs). split; [done|].
    unfold obj_refs in *. simpl in *.
    rewrite bind_app in Hy. simpl in Hy. by rewrite app_nil_r in Hy.
  - rewrite lookup_insert_ne in Hx by done. by exists o.
Qed.

Lemma append_graph_confined : confined_graph append_graph.
Proof.
  intros k nd. unfold append_graph. simpl.
  intros [[_ <-]|[_ [_ <-]%lookup_singleton_Some]]%lookup_insert_Some;
    apply append_item_confined.
Qed.

(** * The engine's properties *)

(** C10: with [max_steps = 0] no node is invoked.  The call returns a run
    that is finished, has an empty log, points at the graph's start node and
    whose state is a new dict: it holds the bindings [d] that the caller's
    dict has in the heap, and none when no initial state is passed.  The
    heap has that one object more and is otherwise as the caller left it,
    and the run is in the run table. *)
Theorem run_graph_zero_steps self run_id t_start t_end graph_id graph
    initial_state d (h : Heap) :
  Engine.graphs self !! graph_id = Some graph →
  match initial_state with
  | Some l0 => get_dict h l0 = Some d
  | None => d = ∅
  end →
  ∃ run,
    run_graph self run_id t_start t_end graph_id initial_state 0 h
      = RunReturn run (store_run self run_id run)
          (<[RunRecord.state run := ODict d]> h) ∧
    RunRecord.finished run = true ∧
    RunRecord.log run = [] ∧
    RunRecord.current_node run = Some (GraphDef.start_node graph) ∧
    h !! RunRecord.state run = None ∧
    Engine.runs (store_run self run_id run) !! run_id = Some run.
Proof.
  intros Hreg Hd.
  assert (initial_bindings initial_state h = Some d) as Hbind
    by (destruct initial_state; simpl; congruence).
  exists (RunRecord.finish
            (new_run run_id graph_id (fresh_loc h) graph t_start) t_end).
  split_and!.
  - by apply (run_graph_prefix _ _ _ _ _ _ _ _ _ Hreg Hbind 0
                (initial_config run_id graph_id graph t_start d h)).
  - done.
  - done.
  - done.
  - apply fresh_loc_None.
  - apply store_run_lookup.
Qed.

Lemma run_graph_zero_steps_witness :
  ∃ run,
    run_graph append_engine "r" 0%Q 1%Q "append" (Some 2%nat) 0 caller_heap
      = RunReturn run (store_run append_engine "r" run)
          (<[RunRecord.state run := ODict {[ "items" := VRef 1%nat ]}]>
             caller_heap) ∧
    RunRecord.finished run = true ∧
    RunRecord.log run = [] ∧
    RunRecord.current_node run = Some "extract" ∧
    caller_heap !! RunRecord.state run = None ∧
    Engine.runs (store_run append_engine "r" run) !! "r" = Some run.
Proof.
  apply (run_graph_zero_steps append_engine "r" 0%Q 1%Q "append"
           append_graph (Some 2%nat) {[ "items" := VRef 1%nat ]}
           caller_heap); reflexivity.
Defined.

(** C2: [run_graph] terminates, with [Z.to_nat max_steps] as fuel.  When it
    returns, the loop was left at the first configuration with a null
    [current_node] or with the counter at the ceiling.  The log never has
    more than [max_steps] entries (none at all for a ceiling of zero or
    below), and a run aborted by an exception has fewer, so that the failing
    invocation is within the ceiling too.  The default ceiling is 100. *)
Theorem run_graph_terminates self run_id t_start t_end graph_id graph
    initial_state d (h : Heap) max_steps :
  Engine.graphs self !! graph_id = Some graph →
  initial_bindings initial_state h = Some d →
  let r :=
    run_graph self run_id t_start t_end graph_id initial_state max_steps h in
  let tools := ToolRegistry.all (Engine.tools_registry self) in
  let c0 := initial_config run_id graph_id graph t_start d h in
  r ≠ RunOutOfFuel ∧
  (∀ run, recorded_run run_id r = Some run →
     (0 ≤ max_steps → Z.of_nat (length (RunRecord.log run)) ≤ max_steps) ∧
     (max_steps ≤ 0 → RunRecord.log run = [])) ∧
  (∀ run self' h', r = RunReturn run self' h' →
     (RunRecord.current_node run = None ∨
      max_steps ≤ Z.of_nat (length (RunRecord.log run))) ∧
     ∀ m cm, (m < length (RunRecord.log run))%nat →
       iterate graph tools m c0 = Some cm →
       is_Some (RunRecord.current_node (c_run cm)) ∧ c_step cm < max_steps) ∧
  (∀ e self' h', r = RunRaise e self' h' →
     ∀ run, Engine.runs self' !! run_id = Some run →
       Z.of_nat (length (RunRecord.log run)) + 1 ≤ max_steps) ∧
  max_steps_default = 100.
Proof.
  intros Hreg Hbind r tools c0. split_and!.
  - by apply (run_graph_fuel_enough _ _ _ _ _ _ _ _ _ Hreg Hbind).
  - intros run Hrec.
    destruct (run_graph_recorded _ _ _ _ _ _ _ _ _ Hreg Hbind _ _ Hrec)
      as (c & _ & Hle & _).
    split; [lia|]. intros Hneg.
    destruct (RunRecord.log run); [done|]. simpl in Hle. lia.
  - intros run self' h' Hr.
    destruct (run_graph_return_inv _ _ _ _ _ _ _ _ _ Hreg Hbind _ _ _ _ Hr)
      as (n & c & Hn & Hc & Hle & -> & _ & _).
    pose proof (iterate_run _ _ _ _ _ Hn) as (Hs & _ & _ & es & Hlog & Hlen & _).
    simpl in Hs, Hlog. simpl. rewrite Hlog, Hlen. split.
    + apply loop_cond_None in Hc as [?|?]; [by left|right; lia].
    + intros m cm Hm Hcm.
      replace n with (m + S (n - S m))%nat in Hn by lia.
      apply iterate_split in Hn as (cm' & Hcm' & Hrest).
      fold tools c0 in Hcm'. rewrite Hcm in Hcm'. injection Hcm' as <-.
      apply iterate_S in Hrest as (k & _ & Hk & _ & _).
      split; [by rewrite Hk|].
      apply iterate_run in Hcm as (Hsm & _). simpl in Hsm. lia.
  - intros e self' h' Hr run Hrun.
    destruct (run_graph_raise_inv _ _ _ _ _ _ _ _ _ Hreg Hbind _ _ _ _ Hr)
      as (n & c & k & c' & Hn & Hc & Hb & -> & _).
    rewrite store_run_lookup in Hrun. injection Hrun as <-.
    apply loop_body_inl in Hb as [-> _].
    apply iterate_run in Hn as (Hs & _ & _ & es & Hlog & Hlen & _).
    apply loop_cond_Some in Hc as [_ Hlt].
    simpl in Hs, Hlog. rewrite Hlog, Hlen. lia.
  - done.
Qed.

Lemma run_graph_terminates_witness :
  Engine.graphs (Engine.add_graph empty_engine self_loop_graph) !! "self_loop"
    = Some self_loop_graph ∧
  initial_bindings None ∅ = Some ∅ ∧
  run_graph (Engine.add_graph empty_engine self_loop_graph) "r" 0%Q 1%Q
    "self_loop" None 5 ∅ ≠ RunOutOfFuel.
Proof.
  split; [reflexivity|]. split; [reflexivity|].
  apply (run_graph_terminates
           (Engine.add_graph empty_engine self_loop_graph) "r" 0%Q 1%Q
           "self_loop" self_loop_graph None ∅ ∅ 5); reflexivity.
Defined.

(** C8: in the run object that a call leaves behind, the [step] fields of
    the log are 0, 1, ..., N-1 in this order, where N, the length of the
    log, is the number of completed runs of the loop body, each of which
    invokes one node. *)
Theorem log_steps_consecutive self run_id t_start t_end graph_id graph
    initial_state d (h : Heap) max_steps run :
  Engine.graphs self !! graph_id = Some graph →
  initial_bindings initial_state h = Some d →
  recorded_run run_id
    (run_graph self run_id t_start t_end graph_id initial_state max_steps h)
    = Some run →
  LogEntry.step <$> RunRecord.log run
    = seqZ 0 (Z.of_nat (length (RunRecord.log run))) ∧
  ∃ c, iterate graph (ToolRegistry.all (Engine.tools_registry self))
         (length (RunRecord.log run))
         (initial_config run_id graph_id graph t_start d h) = Some c ∧
       RunRecord.log (c_run c) = RunRecord.log run.
Proof.
  intros Hreg Hbind Hrec.
  destruct (run_graph_recorded _ _ _ _ _ _ _ _ _ Hreg Hbind _ _ Hrec)
    as (c & Hn & _ & Hlog & _).
  split; [|by eauto].
  apply iterate_run in Hn as (_ & _ & _ & es & Hes & Hlen & Hsteps).
  simpl in Hes, Hsteps. rewrite Hlog, Hes. by rewrite <- Hlen in Hsteps.
Qed.

Lemma log_steps_consecutive_witness :
  ∃ run,
    recorded_run "r"
      (run_graph (Engine.add_graph empty_engine self_loop_graph) "r" 0%Q 1%Q
         "self_loop" None 3 ∅) = Some run ∧
    LogEntry.step <$> RunRecord.log run = [0; 1; 2].
Proof.
  eexists. split; [reflexivity|].
  refine (proj1 (log_steps_consecutive
                   (Engine.add_graph empty_engine self_loop_graph) "r" 0%Q
                   1%Q "self_loop" self_loop_graph None ∅ ∅ 3 _ _ _ _));
    reflexivity.
Defined.

(** C1: take any step [i] of any run, with log entry [e].  The run capped
    at [i] steps stops in front of that step, at a node [current]; the step
    looks up [graph.nodes[current]], calls its logic on the run's state and
    records the node's name and the value returned.  The run capped at
    [i + 1] steps ends right after the step, and its [current_node] is the
    returned value when that is not null, whatever the static edge; only
    when it is null is it what the [edges] mapping holds for the node's
    name, and null when that name is not bound there or is bound to null. *)
Theorem transition_rule self run_id t_start t_end graph_id graph
    initial_state d (h : Heap) max_steps run (i : nat) e :
  Engine.graphs self !! graph_id = Some graph →
  initial_bindings initial_state h = Some d →
  recorded_run run_id
    (run_graph self run_id t_start t_end graph_id initial_state max_steps h)
    = Some run →
  RunRecord.log run !! i = Some e →
  ∃ run_prev self_prev h_prev current node_def before h1 h2
      run_i self_i h_i,
    run_graph self run_id t_start t_end graph_id initial_state
      (Z.of_nat i) h = RunReturn run_prev self_prev h_prev ∧
    RunRecord.current_node run_prev = Some current ∧
    GraphDef.nodes graph !! current = Some node_def ∧
    dict_copy h_prev (RunRecord.state run_prev) = Some (before, h1) ∧
    NodeDef.func node_def (RunRecord.state run_prev)
      (ToolRegistry.all (Engine.tools_registry self)) h1
      = Returns (LogEntry.next_override e) h2 ∧
    LogEntry.node e = NodeDef.name node_def ∧
    run_graph self run_id t_start t_end graph_id initial_state
      (Z.of_nat (S i)) h = RunReturn run_i self_i h_i ∧
    RunRecord.log run_i = take (S i) (RunRecord.log run) ∧
    RunRecord.current_node run_i =
      match LogEntry.next_override e with
      | Some n => Some n
      | None =>
          match GraphDef.edges graph !! NodeDef.name node_def with
          | Some (Some target) => Some target
          | Some None | None => None
          end
      end.
Proof.
  intros Hreg Hbind Hrec Hi.
  destruct (run_graph_recorded _ _ _ _ _ _ _ _ _ Hreg Hbind _ _ Hrec)
    as (c & Hn & _ & Hlog & _).
  rewrite Hlog in Hi.
  destruct (iterate_entry _ _ _
              (initial_config run_id graph_id graph t_start d h) _ _ _
              eq_refl Hn Hi)
    as (c_i & current & c_j & Hci & Hcur & Hb & Hrest & Hlogj).
  assert (iterate graph (ToolRegistry.all (Engine.tools_registry self)) (S i)
            (initial_config run_id graph_id graph t_start d h) = Some c_j)
    as Hcj by (apply iterate_snoc; eauto).
  pose proof (run_graph_prefix _ _ _ t_end _ _ _ _ _ Hreg Hbind _ _ Hci)
    as Hprev.
  pose proof (run_graph_prefix _ _ _ t_end _ _ _ _ _ Hreg Hbind _ _ Hcj)
    as Hnext.
  apply iterate_run in Hci as (_ & _ & _ & es1 & Hlog1 & Hlen1 & _).
  apply iterate_run in Hrest as (_ & _ & _ & es2 & Hlog2 & _).
  apply loop_body_inr in Hb
    as (node_def & before & h1 & next_override & h2 & after & h3 & Hnode
        & Hbefore & Hfunc & _ & ->).
  simpl in Hlogj. apply app_inj_tail in Hlogj as [_ <-].
  simpl in Hlog1, Hlog2.
  eexists _, _, _, current, node_def, before, h1, h2, _, _, _.
  split_and!; [exact Hprev|exact Hcur|exact Hnode|exact Hbefore|exact Hfunc
              |done|exact Hnext| |].
  - simpl. rewrite Hlog, Hlog2, take_app_length'; [done|].
    rewrite length_app, Hlog1. simpl. lia.
  - simpl. unfold transition, GraphDef.edges_get.
    destruct next_override; [done|].
    by destruct (GraphDef.edges graph !! NodeDef.name node_def) as [[?|]|].
Qed.

Lemma transition_rule_witness :
  (∃ run_0 self_0 h_0,
     run_graph (Engine.add_graph empty_engine detour_graph) "r" 0%Q 1%Q
       "detour" None 1 ∅ = RunReturn run_0 self_0 h_0 ∧
     RunRecord.current_node run_0 = Some "check") ∧
  (∃ run_1 self_1 h_1,
     run_graph (Engine.add_graph empty_engine detour_graph) "r" 0%Q 1%Q
       "detour" None 2 ∅ = RunReturn run_1 self_1 h_1 ∧
     GraphDef.edges detour_graph !! "check" = Some (Some "report") ∧
     RunRecord.current_node run_1 = Some "extract").
Proof.
  split.
  - edestruct transition_rule
      with (self := Engine.add_graph empty_engine detour_graph)
           (run_id := "r") (t_start := 0%Q) (t_end := 1%Q)
           (graph_id := "detour") (graph := detour_graph)
           (initial_state := @None loc) (d := (∅ : gmap string value))
           (h := (∅ : Heap)) (max_steps := 3) (i := 0%nat)
      as (run_p & self_p & h_p & current & node_def & before & h1 & h2
          & run_i & self_i & h_i & Hp & Hc & Hnode & _ & _ & _ & Hr & _
          & Hcur).
    + reflexivity.
    + reflexivity.
    + vm_compute; reflexivity.
    + reflexivity.
    + exists run_i, self_i, h_i. split; [exact Hr|].
      rewrite Hcur. vm_compute in Hp. injection Hp as <- _ _.
      vm_compute in Hc. injection Hc as <-.
      vm_compute in Hnode. injection Hnode as <-. reflexivity.
  - edestruct transition_rule
      with (self := Engine.add_graph empty_engine detour_graph)
           (run_id := "r") (t_start := 0%Q) (t_end := 1%Q)
           (graph_id := "detour") (graph := detour_graph)
           (initial_state := @None loc) (d := (∅ : gmap string value))
           (h := (∅ : Heap)) (max_steps := 3) (i := 1%nat)
      as (run_p & self_p & h_p & current & node_def & before & h1 & h2
          & run_i & self_i & h_i & _ & _ & _ & _ & _ & _ & Hr & _ & Hcur).
    + reflexivity.
    + reflexivity.
    + vm_compute; reflexivity.
    + reflexivity.
    + exists run_i, self_i, h_i. split; [exact Hr|]. split; [reflexivity|].
      exact Hcur.
Defined.

(** C7: reaching the step ceiling is not an error.  If [n] iterations
    complete, the run capped at [n] steps returns, finished, with [n] log
    entries and the [current_node] the last iteration left, null or not.
    For the graph whose one node always returns ["extract"], a run with
    [max_steps = 5] has a log of length 5, is finished, and has
    [current_node = "extract"]. *)
Theorem step_ceiling_not_an_error :
  (∀ self run_id t_start t_end graph_id graph initial_state d (h : Heap) n c,
     Engine.graphs self !! graph_id = Some graph →
     initial_bindings initial_state h = Some d →
     iterate graph (ToolRegistry.all (Engine.tools_registry self)) n
       (initial_config run_id graph_id graph t_start d h) = Some c →
     ∃ run self' h',
       run_graph self run_id t_start t_end graph_id initial_state
         (Z.of_nat n) h = RunReturn run self' h' ∧
       RunRecord.finished run = true ∧
       RunRecord.current_node run = RunRecord.current_node (c_run c) ∧
       length (RunRecord.log run) = n) ∧
  (∀ self run_id t_start t_end graph_id initial_state d (h : Heap),
     Engine.graphs self !! graph_id = Some self_loop_graph →
     initial_bindings initial_state h = Some d →
     ∃ run self' h',
       run_graph self run_id t_start t_end graph_id initial_state 5 h
         = RunReturn run self' h' ∧
       length (RunRecord.log run) = 5%nat ∧
       RunRecord.finished run = true ∧
       RunRecord.current_node run = Some "extract").
Proof.
  assert (∀ self run_id t_start t_end graph_id graph initial_state d
            (h : Heap) n c,
     Engine.graphs self !! graph_id = Some graph →
     initial_bindings initial_state h = Some d →
     iterate graph (ToolRegistry.all (Engine.tools_registry self)) n
       (initial_config run_id graph_id graph t_start d h) = Some c →
     ∃ run self' h',
       run_graph self run_id t_start t_end graph_id initial_state
         (Z.of_nat n) h = RunReturn run self' h' ∧
       RunRecord.finished run = true ∧
       RunRecord.current_node run = RunRecord.current_node (c_run c) ∧
       length (RunRecord.log run) = n) as General.
  { intros self run_id t_start t_end graph_id graph initial_state d h n c
      Hreg Hbind Hn.
    eexists _, _, _. split.
    - by apply (run_graph_prefix _ _ _ t_end _ _ _ _ _ Hreg Hbind n c).
    - split_and!; [done|done|].
      apply iterate_run in Hn as (_ & _ & _ & es & Hlog & Hlen & _).
      simpl in *. by rewrite Hlog. }
  split; [exact General|].
  intros self run_id t_start t_end graph_id initial_state d h Hreg Hbind.
  destruct (self_loop_iterate (ToolRegistry.all (Engine.tools_registry self))
              run_id graph_id t_start d h 5) as (c & Hn & Hcur & _).
  destruct (General _ _ _ t_end _ _ _ _ _ _ _ Hreg Hbind Hn)
    as (run & self' & h' & Hr & Hfin & Hcur' & Hlen).
  exists run, self', h'. split_and!; [done|done|done|congruence].
Qed.

Lemma step_ceiling_not_an_error_witness :
  ∃ run self' h',
    run_graph (Engine.add_graph empty_engine self_loop_graph) "r" 0%Q 1%Q
      "self_loop" None 5 ∅ = RunReturn run self' h' ∧
    length (RunRecord.log run) = 5%nat ∧
    RunRecord.finished run = true ∧
    RunRecord.current_node run = Some "extract".
Proof.
  apply (proj2 step_ceiling_not_an_error
           (Engine.add_graph empty_engine self_loop_graph) "r" 0%Q 1%Q
           "self_loop" None ∅ ∅); reflexivity.
Defined.

(** C5: [create_graph_from_spec] raises [KeyError] with the missing name (the
    engine's [UnknownNodeFunction]) at the first item of [node_specs] whose
    function name is not registered; when all are registered and
    [start_node] is not among the node names, it raises [ValueError] (the
    engine's [InvalidStartNode]).  Whenever it raises, the engine, and so its
    graph table, is unchanged. *)
Theorem create_graph_from_spec_errors self graph_id name node_specs edges
    start_node :
  let registry := Engine.node_registry self in
  let r :=
    create_graph_from_spec self graph_id name node_specs edges start_node in
  (Exists (λ p, NodeRegistry.nodes registry !! p.2 = None) node_specs →
   ∃ pre node_name fn_name post,
     node_specs = pre ++ (node_name, fn_name) :: post ∧
     Forall (registered registry) pre ∧
     NodeRegistry.nodes registry !! fn_name = None ∧
     r = (Raise (KeyError fn_name), self)) ∧
  (Forall (registered registry) node_specs →
   start_node ∉ node_specs.*1 →
   r = (Raise (ValueError ("start_node '" +:+ start_node +:+ "' not in nodes")),
        self)) ∧
  (∀ e self', r = (Raise e, self') →
     self' = self ∧ Engine.graphs self' = Engine.graphs self).
Proof.
  intros registry r. split_and!.
  - intros (pre & k & f & post & -> & Hpre & Hf)%first_unregistered.
    exists pre, k, f, post. split_and!; [done|done|done|].
    unfold r, create_graph_from_spec. fold registry.
    by rewrite (resolve_nodes_unknown registry pre k f post ∅ Hpre Hf).
  - intros Hall Hstart.
    destruct (resolve_nodes_known registry node_specs ∅ Hall)
      as (nodes & Hres & Hdom).
    unfold r, create_graph_from_spec. fold registry. rewrite Hres.
    destruct (nodes !! start_node) as [nd|] eqn:Hs; [|done].
    exfalso. apply Hstart.
    destruct (proj1 (Hdom start_node)) as [[? H]|?]; [by eauto| |done].
    by rewrite lookup_empty in H.
  - intros e self'. unfold r, create_graph_from_spec.
    destruct (resolve_nodes _ _ _) as [e'|nodes]; [by intros [= _ <-]|].
    destruct (nodes !! start_node); [done|by intros [= _ <-]].
Qed.

Lemma create_graph_from_spec_errors_witness :
  create_graph_from_spec loop_engine "g" "name" [("extract", "loop")] ∅
    "start"
  = (Raise (ValueError "start_node 'start' not in nodes"), loop_engine) ∧
  ∃ fn_name,
    create_graph_from_spec loop_engine "g" "name"
      [("extract", "loop"); ("check", "absent")] ∅ "extract"
    = (Raise (KeyError fn_name), loop_engine).
Proof.
  split.
  - apply (create_graph_from_spec_errors loop_engine "g" "name"
             [("extract", "loop")] ∅ "start").
    + repeat constructor. by eexists.
    + by intros [= ]%list_elem_of_singleton.
  - destruct (proj1 (create_graph_from_spec_errors loop_engine "g" "name"
                       [("extract", "loop"); ("check", "absent")] ∅
                       "extract"))
      as (pre & k & f & post & _ & _ & _ & Hr).
    + apply Exists_cons_tl, Exists_cons_hd. reflexivity.
    + by exists f.
Defined.

(** C6: suppose [n] steps complete (the run capped at [n] steps returns
    [run_n] in heap [h_n] with a current node), the ceiling is above [n],
    and the logic of the current node raises [e] when it is invoked, after
    the [before] snapshot, leaving heap [h2].  Then [run_graph] raises that
    same [e]; the run in the run table is not finished, has no finishing
    time, and its log is the log of the [n] completed steps. *)
Theorem node_failure_aborts_run self run_id t_start t_end graph_id graph
    initial_state d (h : Heap) max_steps (n : nat) run_n self_n h_n current
    node_def before h1 e h2 :
  Engine.graphs self !! graph_id = Some graph →
  initial_bindings initial_state h = Some d →
  run_graph self run_id t_start t_end graph_id initial_state (Z.of_nat n) h
    = RunReturn run_n self_n h_n →
  Z.of_nat n < max_steps →
  RunRecord.current_node run_n = Some current →
  GraphDef.nodes graph !! current = Some node_def →
  dict_copy h_n (RunRecord.state run_n) = Some (before, h1) →
  NodeDef.func node_def (RunRecord.state run_n)
    (ToolRegistry.all (Engine.tools_registry self)) h1 = Raises e h2 →
  ∃ run self',
    run_graph self run_id t_start t_end graph_id initial_state max_steps h
      = RunRaise e self' h2 ∧
    Engine.runs self' !! run_id = Some run ∧
    Engine.graphs self' = Engine.graphs self ∧
    RunRecord.finished run = false ∧
    RunRecord.finished_at run = None ∧
    RunRecord.log run = RunRecord.log run_n ∧
    length (RunRecord.log run) = n ∧
    RunRecord.current_node run = Some current.
Proof.
  intros Hreg Hbind Hr Hlt Hcur Hnode Hbefore Hfunc.
  destruct (run_graph_return_inv _ _ _ _ _ _ _ _ _ Hreg Hbind _ _ _ _ Hr)
    as (n' & c & Hn & Hc & Hle & -> & _ & ->).
  simpl in Hcur, Hbefore, Hfunc.
  pose proof (iterate_run _ _ _ _ _ Hn)
    as (Hs & _ & Hfin & es & Hlog & Hlen & _).
  apply loop_cond_None in Hc as [Hc|Hc]; [congruence|].
  simpl in Hs, Hlog, Hfin.
  assert (n' = n) as -> by lia.
  assert (loop_body graph (ToolRegistry.all (Engine.tools_registry self))
            current c = inl (e, with_heap c h2)) as Hb.
  { unfold loop_body. by rewrite Hnode, Hbefore, Hfunc. }
  exists (c_run c), (store_run self run_id (c_run c)). split_and!.
  - apply (run_graph_raise _ _ _ t_end _ _ _ _ _ Hreg Hbind max_steps n c
             current e (with_heap c h2)); [done| |done].
    apply loop_cond_Some. split; [done|lia].
  - apply store_run_lookup.
  - done.
  - done.
  - by destruct (iterate_finished_at _ _ _ _ _ Hn) as [-> _].
  - done.
  - by rewrite Hlog.
  - done.
Qed.

Lemma node_failure_aborts_run_witness :
  ∃ run self' h2,
    run_graph (Engine.add_graph empty_engine failing_graph) "r" 0%Q 1%Q
      "failing" None 100 ∅ = RunRaise (KeyError "missing") self' h2 ∧
    Engine.runs self' !! "r" = Some run ∧
    RunRecord.finished run = false ∧
    length (RunRecord.log run) = 1%nat.
Proof.
  edestruct node_failure_aborts_run
    with (self := Engine.add_graph empty_engine failing_graph)
         (run_id := "r") (t_start := 0%Q) (t_end := 1%Q)
         (graph_id := "failing") (graph := failing_graph)
         (initial_state := @None loc) (d := (∅ : gmap string value))
         (h := (∅ : Heap)) (max_steps := 100) (n := 1%nat)
         (current := "fail") (e := KeyError "missing")
    as (run & self' & Hr & Hrun & _ & Hfin & _ & _ & Hlen & _).
  - reflexivity.
  - reflexivity.
  - reflexivity.
  - reflexivity.
  - reflexivity.
  - reflexivity.
  - reflexivity.
  - reflexivity.
  - eexists run, self', _. split_and!; [exact Hr|exact Hrun|exact Hfin|].
    exact Hlen.
Defined.

(** C4, as the claim states it, fails: a node may return a name that is not
    a node of the graph.  Here the run ends with [current_node = "nowhere"],
    which is neither null nor a key of the node mapping, and the lookup at
    the top of the next iteration raises [KeyError]. *)
Lemma current_node_invariant_counterexample :
  ∃ run self' h',
    run_graph (Engine.add_graph empty_engine stray_graph) "r" 0%Q 1%Q
      "stray" None 100 ∅ = RunRaise (KeyError "nowhere") self' h' ∧
    Engine.runs self' !! "r" = Some run ∧
    RunRecord.current_node run = Some "nowhere" ∧
    ¬ valid_current_node stray_graph (RunRecord.current_node run).
Proof.
  eexists _, _, _. split_and!; [reflexivity|reflexivity|reflexivity|].
  simpl. intros [nd Hnd]. vm_compute in Hnd. discriminate.
Qed.

(** C4 amended: if the graph is well formed (its start node and every edge
    target are nodes of the graph) and every successor that its node logic
    returns is a node of the graph, then at every iteration of a run
    [current_node] is null or a key of the node mapping; so is the
    [current_node] of the run object that a call leaves behind, and an
    exception that aborts a run is never the failed lookup of the current
    node. *)
Theorem current_node_invariant self run_id t_start t_end graph_id graph
    initial_state d (h : Heap) max_steps :
  well_formed graph →
  overrides_valid graph →
  Engine.graphs self !! graph_id = Some graph →
  initial_bindings initial_state h = Some d →
  let tools := ToolRegistry.all (Engine.tools_registry self) in
  let c0 := initial_config run_id graph_id graph t_start d h in
  let r :=
    run_graph self run_id t_start t_end graph_id initial_state max_steps h in
  (∀ n c, iterate graph tools n c0 = Some c →
     valid_current_node graph (RunRecord.current_node (c_run c))) ∧
  (∀ run, recorded_run run_id r = Some run →
     valid_current_node graph (RunRecord.current_node run)) ∧
  (∀ e self' h', r = RunRaise e self' h' →
     ∃ run current node_def,
       Engine.runs self' !! run_id = Some run ∧
       RunRecord.current_node run = Some current ∧
       GraphDef.nodes graph !! current = Some node_def).
Proof.
  intros Hwf Hvalid Hreg Hbind tools c0 r.
  assert (∀ n c, iterate graph tools n c0 = Some c →
            valid_current_node graph (RunRecord.current_node (c_run c)))
    as Hinv.
  { intros n c. apply iterate_valid; [done|done|]. simpl. apply Hwf. }
  split_and!; [done| |].
  - intros run Hrec.
    destruct (run_graph_recorded _ _ _ _ _ _ _ _ _ Hreg Hbind _ _ Hrec)
      as (c & Hn & _ & _ & -> & _).
    by eapply Hinv.
  - intros e self' h' Hr.
    destruct (run_graph_raise_inv _ _ _ _ _ _ _ _ _ Hreg Hbind _ _ _ _ Hr)
      as (n & c & k & c' & Hn & Hc & Hb & -> & _).
    apply loop_cond_Some in Hc as [Hk _].
    pose proof (Hinv _ _ Hn) as Hv. rewrite Hk in Hv. destruct Hv as [nd Hnd].
    exists (c_run c'), k, nd. split_and!; [apply store_run_lookup| |done].
    apply loop_body_inl in Hb as [-> _]. done.
Qed.

Lemma current_node_invariant_witness :
  ∃ run,
    recorded_run "r"
      (run_graph (Engine.add_graph empty_engine self_loop_graph) "r" 0%Q 1%Q
         "self_loop" None 2 ∅) = Some run ∧
    valid_current_node self_loop_graph (RunRecord.current_node run).
Proof.
  eexists. split; [vm_compute; reflexivity|].
  refine (proj1 (proj2 (current_node_invariant
                          (Engine.add_graph empty_engine self_loop_graph)
                          "r" 0%Q 1%Q "self_loop" self_loop_graph None ∅ ∅ 2
                          self_loop_well_formed self_loop_overrides_valid
                          eq_refl eq_refl)) _ _).
  vm_compute; reflexivity.
Defined.







(** * More of the engine *)

(** ** Registries *)

(** X1: in both registries [register] followed by [get] of the same name
    gives the function just registered, replacing any earlier one; [get] of
    another name is not affected; [get] raises [KeyError] with the name
    exactly when the name is not in [all()]. *)
Theorem registry_register_get :
  (∀ (reg : NodeRegistry.t) name func name',
     NodeRegistry.get (NodeRegistry.register reg name func) name'
       = if decide (name = name') then inr func
         else NodeRegistry.get reg name') ∧
  (∀ (reg : NodeRegistry.t) name,
     NodeRegistry.all reg !! name = None ↔
     NodeRegistry.get reg name = inl (KeyError name)) ∧
  (∀ (reg : ToolRegistry.t) name func name',
     ToolRegistry.get (ToolRegistry.register reg name func) name'
       = if decide (name = name') then inr func
         else ToolRegistry.get reg name') ∧
  (∀ (reg : ToolRegistry.t) name,
     ToolRegistry.all reg !! name = None ↔
     ToolRegistry.get reg name = inl (KeyError name)).
Proof.
  split_and!.
  - intros reg name func name'.
    unfold NodeRegistry.get, NodeRegistry.register. simpl.
    rewrite lookup_insert. by destruct (decide (name = name')).
  - intros reg name. unfold NodeRegistry.get, NodeRegistry.all.
    destruct (NodeRegistry.nodes reg !! name); split; done.
  - intros reg name func name'.
    unfold ToolRegistry.get, ToolRegistry.register. simpl.
    rewrite lookup_insert. by destruct (decide (name = name')).
  - intros reg name. unfold ToolRegistry.get, ToolRegistry.all.
    destruct (ToolRegistry.tools reg !! name); split; done.
Qed.

(** ** Building a graph *)

Lemma resolve_nodes_inr_registered registry items nodes nodes' :
  resolve_nodes registry items nodes = inr nodes' →
  Forall (registered registry) items.
Proof.
  revert nodes. induction items as [|[k f] items IH]; intros nodes; simpl.
  - constructor.
  - unfold NodeRegistry.get.
    destruct (NodeRegistry.nodes registry !! f) as [fn|] eqn:Hf; [|done].
    intros Hres. constructor; [|by eapply IH].
    unfold registered. simpl. by rewrite Hf.
Qed.

Lemma resolve_nodes_lookup registry items nodes nodes' k node_def :
  resolve_nodes registry items nodes = inr nodes' →
  nodes' !! k = Some node_def →
  (nodes !! k = Some node_def ∧ k ∉ items.*1) ∨
  (NodeDef.name node_def = k ∧ NodeDef.description node_def = "" ∧
   ∃ fn_name, (k, fn_name) ∈ items ∧
     NodeRegistry.nodes registry !! fn_name = Some (NodeDef.func node_def)).
Proof.
  revert nodes. induction items as [|[k0 f0] items IH]; intros nodes; simpl.
  - intros [= <-] Hk. left. split; [done|]. apply not_elem_of_nil.
  - unfold NodeRegistry.get.
    destruct (NodeRegistry.nodes registry !! f0) as [fn|] eqn:Hf; [|done].
    intros Hres Hk.
    destruct (IH _ Hres Hk) as [[Hk1 Hnot]|(Hname & Hdesc & f & Hin & Hreg)].
    + apply lookup_insert_Some in Hk1 as [[<- <-]|[Hne Hk1]].
      * right. simpl. split_and!; [done|done|].
        exists f0. split; [apply list_elem_of_here|done].
      * left. split; [done|]. rewrite not_elem_of_cons. done.
    + right. split_and!; [done|done|].
      exists f. split; [by apply list_elem_of_further|done].
Qed.

(** X2: [create_graph_from_spec] returns a graph exactly when every function
    name of [node_specs] is registered and [start_node] is one of its node
    names.  The graph then has the id, name, edges and start node that were
    passed (the edges are not looked at); its nodes are exactly the names of
    [node_specs], each filed under its own name, with an empty description
    and the registered function of one of its items.  The graph table gains
    this graph under its id and is otherwise unchanged, as are the runs and
    the registries. *)
Theorem create_graph_from_spec_success self graph_id name node_specs edges
    start_node :
  let registry := Engine.node_registry self in
  let r :=
    create_graph_from_spec self graph_id name node_specs edges start_node in
  ((∃ graph self', r = (Return graph, self')) ↔
   Forall (registered registry) node_specs ∧ start_node ∈ node_specs.*1) ∧
  (∀ graph self', r = (Return graph, self') →
     self' = Engine.add_graph self graph ∧
     GraphDef.id graph = graph_id ∧
     GraphDef.name graph = name ∧
     GraphDef.edges graph = edges ∧
     GraphDef.start_node graph = start_node ∧
     (∀ k, is_Some (GraphDef.nodes graph !! k) ↔ k ∈ node_specs.*1) ∧
     (∀ k node_def, GraphDef.nodes graph !! k = Some node_def →
        NodeDef.name node_def = k ∧
        NodeDef.description node_def = "" ∧
        ∃ fn_name, (k, fn_name) ∈ node_specs ∧
          NodeRegistry.nodes registry !! fn_name
            = Some (NodeDef.func node_def)) ∧
     Engine.graphs self' !! graph_id = Some graph ∧
     (∀ g, g ≠ graph_id → Engine.graphs self' !! g = Engine.graphs self !! g) ∧
     Engine.runs self' = Engine.runs self ∧
     Engine.node_registry self' = Engine.node_registry self ∧
     Engine.tools_registry self' = Engine.tools_registry self).
Proof.
  intros registry r. subst r. unfold create_graph_from_spec. fold registry.
  destruct (resolve_nodes registry node_specs ∅) as [e|nodes] eqn:Hres.
  { split.
    - split; [by intros (? & ? & [=])|]. intros [Hall _].
      destruct (resolve_nodes_known registry node_specs ∅ Hall)
        as (nodes & Hres' & _). congruence.
    - by intros ? ? [=]. }
  pose proof (resolve_nodes_inr_registered _ _ _ _ Hres) as Hall.
  destruct (resolve_nodes_known registry node_specs ∅ Hall)
    as (nodes' & Hres' & Hdom).
  assert (nodes' = nodes) as -> by congruence.
  assert (∀ k, is_Some (nodes !! k) ↔ k ∈ node_specs.*1) as Hkeys.
  { intros k. rewrite Hdom, lookup_empty. split; [|by right].
    by intros [[? [=]]|?]. }
  destruct (nodes !! start_node) as [nd|] eqn:Hstart.
  - split.
    + split; [|by eauto]. intros _. split; [done|].
      apply Hkeys. by rewrite Hstart.
    + intros graph self' [= <- <-]. simpl. split_and!; try done.
      * intros k nd' Hk.
        destruct (resolve_nodes_lookup _ _ _ _ _ _ Hres Hk)
          as [[Hk' _]|?]; [|done].
        by rewrite lookup_empty in Hk'.
      * apply lookup_insert_eq.
      * intros g Hg. by apply lookup_insert_ne.
  - split.
    + split; [by intros (? & ? & [=])|]. intros [_ Hin].
      apply Hkeys in Hin. rewrite Hstart in Hin. by destruct Hin.
    + by intros ? ? [=].
Qed.

Lemma create_graph_from_spec_success_witness :
  ∃ graph,
    create_graph_from_spec loop_engine "g" "name" [("extract", "loop")]
      {[ "extract" := None ]} "extract"
    = (Return graph, Engine.add_graph loop_engine graph) ∧
    GraphDef.id graph = "g" ∧
    (∀ k, is_Some (GraphDef.nodes graph !! k) ↔ k ∈ ["extract"]).
Proof.
  eexists. split; [reflexivity|].
  destruct (proj2 (create_graph_from_spec_success loop_engine "g" "name"
                     [("extract", "loop")] {[ "extract" := None ]}
                     "extract") _ _ eq_refl)
    as (_ & Hid & _ & _ & _ & Hkeys & _).
  split; [exact Hid|exact Hkeys].
Defined.

(** ** Running a graph *)

Lemma run_graph_return_registered self run_id t_start t_end graph_id
    initial_state max_steps (h : Heap) run self' h' :
  run_graph self run_id t_start t_end graph_id initial_state max_steps h
    = RunReturn run self' h' →
  ∃ graph d, Engine.graphs self !! graph_id = Some graph ∧
             initial_bindings initial_state h = Some d.
Proof.
  unfold run_graph, run_graph_fuel.
  destruct (Engine.graphs self !! graph_id) as [graph|]; [|done].
  destruct (initial_bindings initial_state h) as [d|]; [|done]. eauto.
Qed.

(** X3: a call of [run_graph] for a graph id that is not in the graph table
    raises [KeyError] with the message [Graph '<id>' not found] and changes
    neither the engine nor the heap.  Whatever the arguments and however the
    call ends, it leaves the graph table and the registries as they were,
    and the run table differs at most under the new run's id. *)
Theorem run_graph_engine_frame self run_id t_start t_end graph_id
    initial_state max_steps (h : Heap) :
  let r :=
    run_graph self run_id t_start t_end graph_id initial_state max_steps h in
  (Engine.graphs self !! graph_id = None →
   r = RunRaise (KeyError ("Graph '" +:+ graph_id +:+ "' not found")) self h) ∧
  (∀ self', result_engine r = Some self' →
     Engine.graphs self' = Engine.graphs self ∧
     Engine.node_registry self' = Engine.node_registry self ∧
     Engine.tools_registry self' = Engine.tools_registry self ∧
     ∀ other, other ≠ run_id →
       Engine.runs self' !! other = Engine.runs self !! other).
Proof.
  intros r. split.
  - intros Hnone. unfold r, run_graph, run_graph_fuel. by rewrite Hnone.
  - intros self' Hres.
    destruct (Engine.graphs self !! graph_id) as [graph|] eqn:Hreg.
    + destruct (initial_bindings initial_state h) as [d|] eqn:Hbind.
      * unfold r in Hres.
        rewrite (run_graph_unfold _ _ _ _ _ _ _ _ _ Hreg Hbind) in Hres.
        destruct (while_loop _ _ _ _ _) as [c|e c|]; simpl in Hres;
          [| |done]; injection Hres as <-; split_and!; try done;
          intros other Hne; by apply lookup_insert_ne.
      * unfold r, run_graph, run_graph_fuel in Hres.
        rewrite Hreg, Hbind in Hres. by injection Hres as <-.
    + unfold r, run_graph, run_graph_fuel in Hres.
      rewrite Hreg in Hres. by injection Hres as <-.
Qed.

Lemma run_graph_engine_frame_witness :
  run_graph empty_engine "r" 0%Q 1%Q "absent" None 100 ∅
    = RunRaise (KeyError "Graph 'absent' not found") empty_engine ∅.
Proof.
  by apply (run_graph_engine_frame empty_engine "r" 0%Q 1%Q "absent" None 100
              ∅).
Defined.

(** X4: [get_run] after [run_graph], for a registered graph and a dict as
    initial state.  When the call returned, [get_run] of the new id gives
    the returned record, which carries that id, the graph id, both time
    stamps and [finished = true]; when it raised, [get_run] gives a record
    with the same identification, no finishing time and [finished = false].
    [get_run] of any other id answers as it did before the call. *)
Theorem run_graph_get_run self run_id t_start t_end graph_id graph
    initial_state d (h : Heap) max_steps :
  Engine.graphs self !! graph_id = Some graph →
  initial_bindings initial_state h = Some d →
  let r :=
    run_graph self run_id t_start t_end graph_id initial_state max_steps h in
  (∀ run self' h', r = RunReturn run self' h' →
     get_run self' run_id = Return run ∧
     RunRecord.id run = run_id ∧
     RunRecord.graph_id run = graph_id ∧
     RunRecord.started_at run = t_start ∧
     RunRecord.finished_at run = Some t_end ∧
     RunRecord.finished run = true) ∧
  (∀ e self' h', r = RunRaise e self' h' →
     ∃ run, get_run self' run_id = Return run ∧
       RunRecord.id run = run_id ∧
       RunRecord.graph_id run = graph_id ∧
       RunRecord.started_at run = t_start ∧
       RunRecord.finished_at run = None ∧
       RunRecord.finished run = false) ∧
  (∀ self' other, result_engine r = Some self' → other ≠ run_id →
     get_run self' other = get_run self other).
Proof.
  intros Hreg Hbind r. split_and!.
  - intros run self' h' Hr.
    destruct (run_graph_return_inv _ _ _ _ _ _ _ _ _ Hreg Hbind _ _ _ _ Hr)
      as (n & c & Hn & _ & _ & -> & -> & _).
    destruct (iterate_finished_at _ _ _ _ _ Hn) as (_ & Hid & Hgid & Hst).
    unfold get_run. rewrite store_run_lookup. by split_and!.
  - intros e self' h' Hr.
    destruct (run_graph_raise_inv _ _ _ _ _ _ _ _ _ Hreg Hbind _ _ _ _ Hr)
      as (n & c & k & c' & Hn & _ & Hb & -> & _).
    destruct (iterate_finished_at _ _ _ _ _ Hn) as (Hfa & Hid & Hgid & Hst).
    destruct (iterate_run _ _ _ _ _ Hn) as (_ & _ & Hfin & _).
    apply loop_body_inl in Hb as [Hrun _].
    exists (c_run c'). unfold get_run. rewrite store_run_lookup, Hrun.
    by split_and!.
  - intros self' other Hres Hne. unfold r in Hres.
    rewrite (run_graph_unfold _ _ _ _ _ _ _ _ _ Hreg Hbind) in Hres.
    unfold get_run.
    destruct (while_loop _ _ _ _ _) as [c|e c|]; simpl in Hres; [| |done];
      injection Hres as <-; simpl; by rewrite lookup_insert_ne.
Qed.

Lemma run_graph_get_run_witness :
  ∃ run self' h',
    run_graph (Engine.add_graph empty_engine self_loop_graph) "r" 0%Q 1%Q
      "self_loop" None 2 ∅ = RunReturn run self' h' ∧
    get_run self' "r" = Return run ∧
    RunRecord.finished_at run = Some 1%Q.
Proof.
  pose proof (proj1 (run_graph_get_run
                       (Engine.add_graph empty_engine self_loop_graph) "r"
                       0%Q 1%Q "self_loop" self_loop_graph None ∅ ∅ 2
                       eq_refl eq_refl)) as H.
  edestruct H as (Hget & _ & _ & _ & Hfa & _); [vm_compute; reflexivity|].
  eexists _, _, _. split; [vm_compute; reflexivity|].
  split; [exact Hget|exact Hfa].
Defined.

(** X5: once a run has ended by itself, the ceiling does not matter: if
    [run_graph] with ceiling [m] returns a run whose [current_node] is null,
    then with any ceiling [m' >= m] it returns the same run, engine and
    heap. *)
Theorem run_graph_ceiling_irrelevant self run_id t_start t_end graph_id
    initial_state (h : Heap) m m' run self' h' :
  run_graph self run_id t_start t_end graph_id initial_state m h
    = RunReturn run self' h' →
  RunRecord.current_node run = None →
  m ≤ m' →
  run_graph self run_id t_start t_end graph_id initial_state m' h
    = RunReturn run self' h'.
Proof.
  intros Hr Hcur Hle.
  destruct (run_graph_return_registered _ _ _ _ _ _ _ _ _ _ _ Hr)
    as (graph & d & Hreg & Hbind).
  destruct (run_graph_return_inv _ _ _ _ _ _ _ _ _ Hreg Hbind _ _ _ _ Hr)
    as (n & c & Hn & _ & Hn_le & -> & -> & ->).
  apply (run_graph_return _ _ _ t_end _ _ _ _ _ Hreg Hbind m' n c);
    [done| |lia].
  apply loop_cond_None. by left.
Qed.

Lemma run_graph_ceiling_irrelevant_witness :
  ∃ run self' h',
    run_graph append_engine "r" 0%Q 1%Q "append" (Some 2%nat) 2 caller_heap
      = RunReturn run self' h' ∧
    run_graph append_engine "r" 0%Q 1%Q "append" (Some 2%nat) 100 caller_heap
      = RunReturn run self' h'.
Proof.
  eexists _, _, _. split; [vm_compute; reflexivity|].
  eapply (run_graph_ceiling_irrelevant append_engine "r" 0%Q 1%Q "append"
            (Some 2%nat) caller_heap 2 100).
  - vm_compute; reflexivity.
  - reflexivity.
  - lia.
Defined.

(** X6: the run capped at [m] steps is a prefix of any longer run.  If a
    call leaves a run with a log of at least [m] entries, whether it
    returned or raised later on, the call with ceiling [m] returns, and its
    run has the first [m] entries of that log and the same state object. *)
Theorem capped_run_is_prefix self run_id t_start t_end graph_id graph
    initial_state d (h : Heap) max_steps run (m : nat) :
  Engine.graphs self !! graph_id = Some graph →
  initial_bindings initial_state h = Some d →
  recorded_run run_id
    (run_graph self run_id t_start t_end graph_id initial_state max_steps h)
    = Some run →
  (m ≤ length (RunRecord.log run))%nat →
  ∃ run_m self_m h_m,
    run_graph self run_id t_start t_end graph_id initial_state (Z.of_nat m) h
      = RunReturn run_m self_m h_m ∧
    RunRecord.log run_m = take m (RunRecord.log run) ∧
    RunRecord.state run_m = RunRecord.state run.
Proof.
  intros Hreg Hbind Hrec Hm.
  destruct (run_graph_recorded _ _ _ _ _ _ _ _ _ Hreg Hbind _ _ Hrec)
    as (c & Hn & _ & Hlog & _ & Hst).
  replace (length (RunRecord.log run))
    with (m + (length (RunRecord.log run) - m))%nat in Hn by lia.
  apply iterate_split in Hn as (c_m & Hcm & Hrest).
  eexists _, _, _. split.
  - exact (run_graph_prefix _ _ _ t_end _ _ _ _ _ Hreg Hbind _ _ Hcm).
  - apply iterate_run in Hrest as (_ & Hst2 & _ & es2 & Hlog2 & _).
    apply iterate_run in Hcm as (_ & _ & _ & es1 & Hlog1 & Hlen1 & _).
    simpl in *. split; [|congruence].
    rewrite Hlog, Hlog2, Hlog1. by rewrite take_app_length'.
Qed.

Lemma capped_run_is_prefix_witness :
  ∃ run run_m self_m h_m,
    recorded_run "r"
      (run_graph (Engine.add_graph empty_engine failing_graph) "r" 0%Q 1%Q
         "failing" None 100 ∅) = Some run ∧
    run_graph (Engine.add_graph empty_engine failing_graph) "r" 0%Q 1%Q
      "failing" None 1 ∅ = RunReturn run_m self_m h_m ∧
    RunRecord.log run_m = take 1 (RunRecord.log run).
Proof.
  eexists. 
  edestruct capped_run_is_prefix
    with (self := Engine.add_graph empty_engine failing_graph)
         (run_id := "r") (t_start := 0%Q) (t_end := 1%Q)
         (graph_id := "failing") (graph := failing_graph)
         (initial_state := @None loc) (d := (∅ : gmap string value))
         (h := (∅ : Heap)) (max_steps := 100) (m := 1%nat)
    as (run_m & self_m & h_m & Hr & Hlog & _).
  - reflexivity.
  - reflexivity.
  - vm_compute; reflexivity.
  - simpl. lia.
  - exists run_m, self_m, h_m.
    split_and!; [vm_compute; reflexivity|exact Hr|exact Hlog].
Defined.

(** X7: the engine does not check that [current_node] names a node.  If [n]
    steps complete (the run capped at [n] steps returns), the ceiling is
    above [n], and the current node is not a key of the graph's node
    mapping, then [run_graph] raises [KeyError] carrying that name, in the
    heap as those [n] steps left it; the run in the run table is not
    finished and has the log of the [n] steps.  With [n = 0] this is a graph
    whose start node is not one of its nodes, which [add_graph] accepts. *)
Theorem missing_node_raises_key_error self run_id t_start t_end graph_id
    graph initial_state d (h : Heap) max_steps (n : nat) run_n self_n h_n
    current :
  Engine.graphs self !! graph_id = Some graph →
  initial_bindings initial_state h = Some d →
  run_graph self run_id t_start t_end graph_id initial_state (Z.of_nat n) h
    = RunReturn run_n self_n h_n →
  Z.of_nat n < max_steps →
  RunRecord.current_node run_n = Some current →
  GraphDef.nodes graph !! current = None →
  ∃ run,
    run_graph self run_id t_start t_end graph_id initial_state max_steps h
      = RunRaise (KeyError current) (store_run self run_id run) h_n ∧
    RunRecord.finished run = false ∧
    RunRecord.log run = RunRecord.log run_n ∧
    RunRecord.current_node run = Some current.
Proof.
  intros Hreg Hbind Hr Hlt Hcur Hnode.
  destruct (run_graph_return_inv _ _ _ _ _ _ _ _ _ Hreg Hbind _ _ _ _ Hr)
    as (n' & c & Hn & Hc & Hle & -> & _ & ->).
  simpl in Hcur.
  pose proof (iterate_run _ _ _ _ _ Hn) as (Hs & _ & Hfin & _).
  apply loop_cond_None in Hc as [Hc|Hc]; [congruence|].
  simpl in Hs, Hfin.
  assert (loop_body graph (ToolRegistry.all (Engine.tools_registry self))
            current c = inl (KeyError current, c)) as Hb.
  { unfold loop_body. by rewrite Hnode. }
  exists (c_run c). split_and!; [|done|done|done].
  apply (run_graph_raise _ _ _ t_end _ _ _ _ _ Hreg Hbind max_steps n' c
           current (KeyError current) c); [done| |done].
  apply loop_cond_Some. split; [done|lia].
Qed.

Lemma missing_node_raises_key_error_witness :
  ∃ run h_n,
    run_graph (Engine.add_graph empty_engine stray_graph) "r" 0%Q 1%Q
      "stray" None 100 ∅
    = RunRaise (KeyError "nowhere")
        (store_run (Engine.add_graph empty_engine stray_graph) "r" run) h_n ∧
    RunRecord.finished run = false.
Proof.
  edestruct missing_node_raises_key_error
    with (self := Engine.add_graph empty_engine stray_graph)
         (run_id := "r") (t_start := 0%Q) (t_end := 1%Q)
         (graph_id := "stray") (graph := stray_graph)
         (initial_state := @None loc) (d := (∅ : gmap string value))
         (h := (∅ : Heap)) (max_steps := 100) (n := 1%nat)
         (current := "nowhere")
    as (run & Hr & Hfin & _).
  - reflexivity.
  - reflexivity.
  - vm_compute; reflexivity.
  - lia.
  - reflexivity.
  - reflexivity.
  - eexists _, _. split; [exact Hr|exact Hfin].
Defined.

Lemma iterate_entry_node graph tools n c0 c (i : nat) e :
  name_keyed graph →
  RunRecord.log (c_run c0) = [] →
  iterate graph tools n c0 = Some c →
  RunRecord.log (c_run c) !! i = Some e →
  ∃ c_i c_j,
    iterate graph tools i c0 = Some c_i ∧
    iterate graph tools (S i) c0 = Some c_j ∧
    RunRecord.current_node (c_run c_i) = Some (LogEntry.node e) ∧
    is_Some (GraphDef.nodes graph !! LogEntry.node e) ∧
    RunRecord.current_node (c_run c_j)
      = transition graph (LogEntry.node e) (LogEntry.next_override e).
Proof.
  intros Hkeyed Hnil Hn Hi.
  destruct (iterate_entry _ _ _ _ _ _ _ Hnil Hn Hi)
    as (c_i & k & c_j & Hci & Hk & Hb & _ & Hlog).
  exists c_i, c_j.
  assert (iterate graph tools (S i) c0 = Some c_j) as Hcj
    by (apply iterate_snoc; eauto).
  apply loop_body_inr in Hb
    as (nd & b & h1 & ov & h2 & a & h3 & Hnd & _ & _ & _ & ->).
  simpl in Hlog. apply app_inj_tail in Hlog as [_ <-]. simpl.
  rewrite (Hkeyed _ _ Hnd). split_and!; try done.
  - by rewrite <- (Hkeyed _ _ Hnd).
Qed.

(** X8: in a graph whose nodes are filed under their own names, the log is
    the path that was walked.  The first entry is for the start node; each
    entry is for a node of the graph; and the entry after an entry [e] is
    for the node that [e] selects, its override when that is not null and
    the static edge of its node otherwise. *)
Theorem log_follows_transitions self run_id t_start t_end graph_id graph
    initial_state d (h : Heap) max_steps run :
  name_keyed graph →
  Engine.graphs self !! graph_id = Some graph →
  initial_bindings initial_state h = Some d →
  recorded_run run_id
    (run_graph self run_id t_start t_end graph_id initial_state max_steps h)
    = Some run →
  (∀ e, RunRecord.log run !! 0%nat = Some e →
     LogEntry.node e = GraphDef.start_node graph) ∧
  (∀ i e, RunRecord.log run !! i = Some e →
     is_Some (GraphDef.nodes graph !! LogEntry.node e)) ∧
  (∀ i e e', RunRecord.log run !! i = Some e →
     RunRecord.log run !! S i = Some e' →
     transition graph (LogEntry.node e) (LogEntry.next_override e)
       = Some (LogEntry.node e')).
Proof.
  intros Hkeyed Hreg Hbind Hrec.
  destruct (run_graph_recorded _ _ _ _ _ _ _ _ _ Hreg Hbind _ _ Hrec)
    as (c & Hn & _ & Hlog & _).
  rewrite Hlog.
  assert (RunRecord.log
            (c_run (initial_config run_id graph_id graph t_start d h)) = [])
    as Hnil by done.
  split_and!.
  - intros e He.
    destruct (iterate_entry_node _ _ _ _ _ _ _ Hkeyed Hnil Hn He)
      as (c_i & c_j & Hci & _ & Hcur & _).
    injection Hci as <-. simpl in Hcur. by injection Hcur.
  - intros i e He.
    by destruct (iterate_entry_node _ _ _ _ _ _ _ Hkeyed Hnil Hn He)
      as (c_i & c_j & _ & _ & _ & Hnode & _).
  - intros i e e' He He'.
    destruct (iterate_entry_node _ _ _ _ _ _ _ Hkeyed Hnil Hn He)
      as (c_i & c_j & _ & Hcj & _ & _ & Hnext).
    destruct (iterate_entry_node _ _ _ _ _ _ _ Hkeyed Hnil Hn He')
      as (c_j' & c_k & Hcj' & _ & Hcur & _).
    rewrite Hcj in Hcj'. injection Hcj' as <-. congruence.
Qed.

Lemma append_graph_name_keyed : name_keyed append_graph.
Proof.
  intros k nd. unfold append_graph. simpl.
  by intros [[<- <-]|[_ [<- <-]%lookup_singleton_Some]]%lookup_insert_Some.
Qed.

Lemma log_follows_transitions_witness :
  ∃ run e e',
    recorded_run "r"
      (run_graph append_engine "r" 0%Q 1%Q "append" (Some 2%nat) 100
         caller_heap) = Some run ∧
    RunRecord.log run !! 0%nat = Some e ∧
    RunRecord.log run !! 1%nat = Some e' ∧
    transition append_graph (LogEntry.node e) (LogEntry.next_override e)
      = Some (LogEntry.node e').
Proof.
  eexists _, _, _.
  split; [vm_compute; reflexivity|].
  split; [reflexivity|]. split; [reflexivity|].
  refine (proj2 (proj2 (log_follows_transitions append_engine "r" 0%Q 1%Q
                         "append" append_graph (Some 2%nat)
                         {[ "items" := VRef 1%nat ]} caller_heap 100 _
                         append_graph_name_keyed eq_refl eq_refl _))
            0%nat _ _ _ _).
  - vm_compute; reflexivity.
  - reflexivity.
  - reflexivity.
Defined.

(** * The HTTP layer *)

(** ** Dict items *)

Lemma dict_set_keys {A} (items : list (string * A)) k v k' :
  k' ∈ (dict_set items k v).*1 ↔ k' = k ∨ k' ∈ items.*1.
Proof.
  induction items as [|[k0 v0] items IH]; simpl.
  - rewrite list_elem_of_singleton, elem_of_nil. tauto.
  - destruct (decide (k0 = k)) as [->|Hne]; simpl.
    + rewrite !elem_of_cons. tauto.
    + rewrite !elem_of_cons, IH. tauto.
Qed.

Lemma dict_set_elem_of {A} (items : list (string * A)) k v k' v' :
  (k', v') ∈ dict_set items k v →
  (k' = k ∧ v' = v) ∨ (k', v') ∈ items.
Proof.
  induction items as [|[k0 v0] items IH]; simpl.
  - intros [= -> ->]%list_elem_of_singleton. by left.
  - destruct (decide (k0 = k)) as [->|Hne].
    + intros [[= -> ->]|Hin]%elem_of_cons; [by left|].
      right. by apply list_elem_of_further.
    + intros [[= -> ->]|Hin]%elem_of_cons.
      * right. apply list_elem_of_here.
      * destruct (IH Hin) as [?|?]; [by left|].
        right. by apply list_elem_of_further.
Qed.

Lemma node_specs_of_keys (nodes : list Main.GraphCreateNode.t) k :
  k ∈ (Main.node_specs_of nodes).*1 ↔
  k ∈ Main.GraphCreateNode.name <$> nodes.
Proof.
  unfold Main.node_specs_of.
  assert (∀ acc : list (string * string),
    k ∈ (foldl (λ items n,
                  dict_set items (Main.GraphCreateNode.name n)
                    (Main.GraphCreateNode.function n)) acc nodes).*1 ↔
    k ∈ acc.*1 ∨ k ∈ Main.GraphCreateNode.name <$> nodes) as Hgen.
  { induction nodes as [|n nodes IH]; intros acc; simpl.
    - rewrite elem_of_nil. tauto.
    - rewrite IH, dict_set_keys, elem_of_cons. tauto. }
  rewrite Hgen. simpl. rewrite elem_of_nil. tauto.
Qed.

Lemma node_specs_of_elem_of (nodes : list Main.GraphCreateNode.t) k f :
  (k, f) ∈ Main.node_specs_of nodes →
  ∃ n, n ∈ nodes ∧ Main.GraphCreateNode.name n = k ∧
       Main.GraphCreateNode.function n = f.
Proof.
  unfold Main.node_specs_of.
  assert (∀ acc : list (string * string),
    (k, f) ∈ foldl (λ items n,
                      dict_set items (Main.GraphCreateNode.name n)
                        (Main.GraphCreateNode.function n)) acc nodes →
    (k, f) ∈ acc ∨
    ∃ n, n ∈ nodes ∧ Main.GraphCreateNode.name n = k ∧
         Main.GraphCreateNode.function n = f) as Hgen.
  { induction nodes as [|n nodes IH]; intros acc; simpl.
    - by left.
    - intros [[[-> ->]|?]%dict_set_elem_of|(n' & Hn' & ?)]%IH.
      + right. exists n. split; [apply list_elem_of_here|done].
      + by left.
      + right. exists n'. split; [by apply list_elem_of_further|done]. }
  intros [[]%elem_of_nil|?]%Hgen. done.
Qed.

(** ** Edge validation *)

Lemma check_edges_None node_specs edges :
  Main.check_edges node_specs edges = None ↔
  Forall (edge_valid node_specs) edges.
Proof.
  induction edges as [|[k t] edges IH]; simpl.
  - split; [constructor|done].
  - rewrite Forall_cons. unfold edge_valid at 1. simpl.
    destruct (bool_decide_reflect (k ∈ node_specs.*1)) as [Hk|Hk].
    + destruct t as [x|].
      * destruct (bool_decide_reflect (x ∈ node_specs.*1)) as [Hx|Hx].
        -- rewrite IH. split; [|tauto]. intros ?. split; [|done].
           split; [done|]. by intros ? [= <-].
        -- split; [done|]. intros [[_ Hv] _]. destruct Hx. by apply Hv.
      * rewrite IH. split; [|tauto]. intros ?. split; [|done].
        split; [done|]. by intros ? [=].
    + split; [done|]. by intros [[? _] _].
Qed.

Lemma check_edges_first node_specs pre k t post :
  Forall (edge_valid node_specs) pre →
  Main.check_edges node_specs (pre ++ (k, t) :: post)
    = Main.check_edges node_specs ((k, t) :: post).
Proof.
  induction 1 as [|[k0 t0] pre [Hk Ht] _ IH]; [done|]. simpl in *.
  rewrite bool_decide_eq_true_2 by done.
  destruct t0 as [x|]; [|done].
  by rewrite bool_decide_eq_true_2 by by apply Ht.
Qed.

Lemma check_edges_status node_specs edges e :
  Main.check_edges node_specs edges = Some e → Main.status_code e = 400.
Proof.
  induction edges as [|[k t] edges IH]; simpl; [done|].
  destruct (bool_decide (k ∈ node_specs.*1)); [|by intros [= <-]].
  destruct t as [x|]; [|done].
  destruct (bool_decide (x ∈ node_specs.*1)); [done|by intros [= <-]].
Qed.

(** ** What [create_graph_from_spec] gives the route *)

Lemma resolve_nodes_inl registry items nodes e :
  resolve_nodes registry items nodes = inl e →
  ∃ k fn_name, (k, fn_name) ∈ items ∧
    NodeRegistry.nodes registry !! fn_name = None ∧ e = KeyError fn_name.
Proof.
  revert nodes. induction items as [|[k f] items IH]; intros nodes; simpl.
  - done.
  - unfold NodeRegistry.get.
    destruct (NodeRegistry.nodes registry !! f) as [fn|] eqn:Hf.
    + intros (k' & f' & Hin & ?)%IH.
      exists k', f'. split; [by apply list_elem_of_further|done].
    + intros [= <-]. exists k, f. split; [apply list_elem_of_here|done].
Qed.

Lemma create_graph_from_spec_inv self graph_id name node_specs edges
    start_node :
  match
    create_graph_from_spec self graph_id name node_specs edges start_node
  with
  | (Return graph, self') =>
      self' = Engine.add_graph self graph ∧
      resolve_nodes (Engine.node_registry self) node_specs ∅
        = inr (GraphDef.nodes graph) ∧
      is_Some (GraphDef.nodes graph !! start_node) ∧
      graph = {| GraphDef.id := graph_id; GraphDef.name := name;
                 GraphDef.nodes := GraphDef.nodes graph;
                 GraphDef.edges := edges;
                 GraphDef.start_node := start_node |}
  | (Raise e, self') =>
      self' = self ∧
      ((∃ k fn_name, (k, fn_name) ∈ node_specs ∧
          NodeRegistry.nodes (Engine.node_registry self) !! fn_name = None ∧
          e = KeyError fn_name) ∨
       (Forall (registered (Engine.node_registry self)) node_specs ∧
        (start_node ∉ node_specs.*1) ∧
        e = ValueError
              ("start_node '" +:+ start_node +:+ "' not in nodes")))
  end.
Proof.
  unfold create_graph_from_spec.
  destruct (resolve_nodes _ _ _) as [e|nodes] eqn:Hres.
  - split; [done|]. left. by eapply resolve_nodes_inl.
  - pose proof (resolve_nodes_inr_registered _ _ _ _ Hres) as Hall.
    destruct (resolve_nodes_known _ node_specs ∅ Hall)
      as (nodes' & Hres' & Hdom).
    assert (nodes' = nodes) as -> by congruence.
    destruct (nodes !! start_node) as [nd|] eqn:Hstart; simpl.
    + split_and!; [done|done|by rewrite Hstart|done].
    + split; [done|]. right. split_and!; [done| |done].
      intros Hin. assert (is_Some (nodes !! start_node)) as [? ?]
        by (apply Hdom; by right). congruence.
Qed.

(** ** [POST /graph/create] *)

(** X9: when [create_graph] answers with a graph id, the engine holds under
    that id a well-formed graph: its start node and the target of every edge
    are nodes of the graph, and so is the source of every edge.  Its nodes
    are exactly the names listed in the payload, each filed under its own
    name with the registered function that one of its listings names. *)
Theorem create_graph_registers_well_formed repr engine graph_id payload resp
    engine' :
  Main.create_graph repr engine graph_id payload = (Main.Ok resp, engine') →
  ∃ graph,
    engine' = Engine.add_graph engine graph ∧
    Engine.graphs engine' !! graph_id = Some graph ∧
    Main.GraphCreateResponse.graph_id resp = graph_id ∧
    GraphDef.id graph = graph_id ∧
    well_formed graph ∧
    name_keyed graph ∧
    (∀ k, is_Some (GraphDef.edges graph !! k) →
       is_Some (GraphDef.nodes graph !! k)) ∧
    (∀ k, is_Some (GraphDef.nodes graph !! k) ↔
       k ∈ Main.GraphCreateNode.name
             <$> Main.GraphCreateRequest.nodes payload) ∧
    (∀ k node_def, GraphDef.nodes graph !! k = Some node_def →
       ∃ n, n ∈ Main.GraphCreateRequest.nodes payload ∧
         Main.GraphCreateNode.name n = k ∧
         NodeRegistry.nodes (Engine.node_registry engine)
           !! Main.GraphCreateNode.function n
           = Some (NodeDef.func node_def)).
Proof.
  unfold Main.create_graph.
  set (specs := Main.node_specs_of (Main.GraphCreateRequest.nodes payload)).
  destruct (Main.check_edges specs _) as [e|] eqn:Hedges; [done|].
  apply check_edges_None in Hedges.
  pose proof (create_graph_from_spec_inv engine graph_id
                (Main.GraphCreateRequest.name payload) specs
                (list_to_map (Main.GraphCreateRequest.edges payload))
                (Main.GraphCreateRequest.start_node payload)) as Hinv.
  destruct (create_graph_from_spec _ _ _ _ _ _) as [[graph|e] self'];
    [|by destruct e].
  destruct Hinv as (-> & Hres & Hstart & Hgraph).
  intros [= <- <-]. exists graph.
  pose proof (resolve_nodes_inr_registered _ _ _ _ Hres) as Hall.
  destruct (resolve_nodes_known _ specs ∅ Hall) as (nodes' & Hres' & Hdom).
  assert (nodes' = GraphDef.nodes graph) as -> by congruence.
  assert (∀ k, is_Some (GraphDef.nodes graph !! k) ↔ k ∈ specs.*1) as Hkeys.
  { intros k. rewrite Hdom, lookup_empty. split; [|by right].
    by intros [[? [=]]|?]. }
  assert (GraphDef.id graph = graph_id) as Hid by by rewrite Hgraph.
  assert (GraphDef.edges graph
          = list_to_map (Main.GraphCreateRequest.edges payload)) as Hed
    by by rewrite Hgraph.
  assert (GraphDef.start_node graph
          = Main.GraphCreateRequest.start_node payload) as Hst
    by by rewrite Hgraph.
  split_and!; try done.
  - unfold Engine.add_graph. simpl. rewrite Hid. apply lookup_insert_eq.
  - split; [by rewrite Hst|]. intros k target. rewrite Hed.
    intros Hin%elem_of_list_to_map_2.
    rewrite Forall_forall in Hedges. destruct (Hedges _ Hin) as [_ Ht].
    apply Hkeys. by apply Ht.
  - intros k nd Hk.
    destruct (resolve_nodes_lookup _ _ _ _ _ _ Hres Hk)
      as [[Hk' _]|(? & _)]; [by rewrite lookup_empty in Hk'|done].
  - intros k [t Hk]. rewrite Hed in Hk.
    apply elem_of_list_to_map_2 in Hk.
    rewrite Forall_forall in Hedges. destruct (Hedges _ Hk) as [Hsrc _].
    by apply Hkeys.
  - intros k. rewrite Hkeys. apply node_specs_of_keys.
  - intros k nd Hk.
    destruct (resolve_nodes_lookup _ _ _ _ _ _ Hres Hk)
      as [[Hk' _]|(_ & _ & f & Hin & Hf)]; [by rewrite lookup_empty in Hk'|].
    apply node_specs_of_elem_of in Hin as (n & Hn & Hname & <-). eauto.
Qed.

Lemma create_graph_registers_well_formed_witness :
  ∃ graph,
    Engine.graphs
      (Main.create_graph (λ s, s) loop_engine "g"
         {| Main.GraphCreateRequest.name := "name";
            Main.GraphCreateRequest.nodes :=
              [{| Main.GraphCreateNode.name := "extract";
                  Main.GraphCreateNode.function := "loop" |}];
            Main.GraphCreateRequest.edges := [("extract", None)];
            Main.GraphCreateRequest.start_node := "extract" |}).2
      !! "g" = Some graph ∧
    well_formed graph.
Proof.
  edestruct create_graph_registers_well_formed
    with (repr := λ s : string, s) (engine := loop_engine)
         (graph_id := "g")
         (payload :=
            {| Main.GraphCreateRequest.name := "name";
               Main.GraphCreateRequest.nodes :=
                 [{| Main.GraphCreateNode.name := "extract";
                     Main.GraphCreateNode.function := "loop" |}];
               Main.GraphCreateRequest.edges := [("extract", None)];
               Main.GraphCreateRequest.start_node := "extract" |})
    as (graph & Heng & Hg & _ & _ & Hwf & _).
  - reflexivity.
  - exists graph. split; [exact Hg|exact Hwf].
Defined.

(** X10: [create_graph] fails only with [HTTPException] of status 400, and
    then leaves the engine as it was: no graph is registered, and no
    exception of the engine gets through. *)
Theorem create_graph_rejects repr engine graph_id payload r engine' :
  Main.create_graph repr engine graph_id payload = (r, engine') →
  (∃ resp, r = Main.Ok resp) ∨
  (engine' = engine ∧
   ∃ detail,
     r = Main.HttpError
           {| Main.status_code := 400; Main.detail := detail |}).
Proof.
  unfold Main.create_graph.
  set (specs := Main.node_specs_of (Main.GraphCreateRequest.nodes payload)).
  destruct (Main.check_edges specs _) as [e|] eqn:Hedges.
  - intros [= <- <-]. right. split; [done|].
    apply check_edges_status in Hedges. destruct e as [code detail].
    simpl in Hedges. subst code. eauto.
  - pose proof (create_graph_from_spec_inv engine graph_id
                  (Main.GraphCreateRequest.name payload) specs
                  (list_to_map (Main.GraphCreateRequest.edges payload))
                  (Main.GraphCreateRequest.start_node payload)) as Hinv.
    destruct (create_graph_from_spec _ _ _ _ _ _) as [[graph|e] self'].
    + intros [= <- _]. left. eauto.
    + destruct Hinv as [-> [(k & f & _ & _ & ->)|(_ & _ & ->)]];
        intros [= <- <-]; right; eauto.
Qed.

Lemma create_graph_rejects_witness :
  ∃ detail,
    Main.create_graph (λ s, s) loop_engine "g"
      {| Main.GraphCreateRequest.name := "name";
         Main.GraphCreateRequest.nodes :=
           [{| Main.GraphCreateNode.name := "extract";
               Main.GraphCreateNode.function := "absent" |}];
         Main.GraphCreateRequest.edges := [("extract", None)];
         Main.GraphCreateRequest.start_node := "extract" |}
    = (Main.HttpError
         {| Main.status_code := 400; Main.detail := detail |}, loop_engine).
Proof.
  edestruct create_graph_rejects
    with (repr := λ s : string, s) (engine := loop_engine)
         (graph_id := "g")
         (payload :=
            {| Main.GraphCreateRequest.name := "name";
               Main.GraphCreateRequest.nodes :=
                 [{| Main.GraphCreateNode.name := "extract";
                     Main.GraphCreateNode.function := "absent" |}];
               Main.GraphCreateRequest.edges := [("extract", None)];
               Main.GraphCreateRequest.start_node := "extract" |})
    as [(resp & Hresp)|(_ & detail & Hr)].
  - reflexivity.
  - discriminate Hresp.
  - exists detail. by rewrite <- Hr.
Defined.

(** X11: the order of the checks of [create_graph].  The edges are checked
    first, in their order: the first edge whose source is not a listed node
    name, or whose target is not null and not a listed node name, decides
    the answer, whatever the function names and the start node are.  With
    all edges valid, an unregistered function name is reported; with the
    functions registered too, a start node that is not listed is. *)
Theorem create_graph_errors repr engine graph_id payload :
  let names :=
    Main.GraphCreateNode.name <$> Main.GraphCreateRequest.nodes payload in
  let specs := Main.node_specs_of (Main.GraphCreateRequest.nodes payload) in
  let edges := Main.GraphCreateRequest.edges payload in
  let r := Main.create_graph repr engine graph_id payload in
  (∀ pre k t post,
     edges = pre ++ (k, t) :: post →
     Forall (edge_valid specs) pre →
     k ∉ names →
     r = (Main.HttpError
            {| Main.status_code := 400;
               Main.detail :=
                 "Edge source node '" +:+ k +:+ "' not in nodes list." |},
          engine)) ∧
  (∀ pre k target post,
     edges = pre ++ (k, Some target) :: post →
     Forall (edge_valid specs) pre →
     k ∈ names →
     target ∉ names →
     r = (Main.HttpError
            {| Main.status_code := 400;
               Main.detail :=
                 "Edge target node '" +:+ target
                   +:+ "' not in nodes list." |},
          engine)) ∧
  (Forall (edge_valid specs) edges →
   Exists
     (λ p, NodeRegistry.nodes (Engine.node_registry engine) !! p.2 = None)
     specs →
   ∃ fn_name,
     fn_name ∈ Main.GraphCreateNode.function
                 <$> Main.GraphCreateRequest.nodes payload ∧
     NodeRegistry.nodes (Engine.node_registry engine) !! fn_name = None ∧
     r = (Main.HttpError
            {| Main.status_code := 400;
               Main.detail := "Unknown node function: " +:+ repr fn_name |},
          engine)) ∧
  (Forall (edge_valid specs) edges →
   Forall (registered (Engine.node_registry engine)) specs →
   Main.GraphCreateRequest.start_node payload ∉ names →
   r = (Main.HttpError
          {| Main.status_code := 400;
             Main.detail :=
               "start_node '" +:+ Main.GraphCreateRequest.start_node payload
                 +:+ "' not in nodes" |},
        engine)).
Proof.
  intros names specs edges r. subst r. unfold Main.create_graph.
  fold specs edges. split_and!.
  - intros pre k t post -> Hpre Hk.
    rewrite check_edges_first by done. simpl.
    rewrite bool_decide_eq_false_2; [done|].
    intros Hin. apply Hk. by apply node_specs_of_keys.
  - intros pre k target post -> Hpre Hk Ht.
    rewrite check_edges_first by done. simpl.
    rewrite bool_decide_eq_true_2 by by apply node_specs_of_keys.
    rewrite bool_decide_eq_false_2; [done|].
    intros Hin. apply Ht. by apply node_specs_of_keys.
  - intros Hedges Hex. apply check_edges_None in Hedges. rewrite Hedges.
    destruct (first_unregistered _ _ Hex)
      as (pre & k & f & post & Hspecs & Hpre & Hf).
    unfold create_graph_from_spec. rewrite Hspecs.
    rewrite (resolve_nodes_unknown _ pre k f post ∅ Hpre Hf).
    exists f. split_and!; [|done|done].
    assert ((k, f) ∈ specs) as Hin
      by (rewrite Hspecs; apply elem_of_app; right; apply list_elem_of_here).
    apply node_specs_of_elem_of in Hin as (n & Hn & _ & <-).
    apply list_elem_of_fmap. eauto.
  - intros Hedges Hall Hstart. apply check_edges_None in Hedges.
    rewrite Hedges.
    pose proof (create_graph_from_spec_inv engine graph_id
                  (Main.GraphCreateRequest.name payload) specs
                  (list_to_map edges)
                  (Main.GraphCreateRequest.start_node payload)) as Hinv.
    destruct (create_graph_from_spec _ _ _ _ _ _) as [[graph|e] self'].
    + destruct Hinv as (_ & Hres & Hs & _). exfalso. apply Hstart.
      destruct (resolve_nodes_known _ specs ∅ Hall)
        as (nodes' & Hres' & Hdom).
      assert (nodes' = GraphDef.nodes graph) as -> by congruence.
      apply Hdom in Hs as [[? Hs]|Hs]; [by rewrite lookup_empty in Hs|].
      by apply node_specs_of_keys.
    + destruct Hinv as [-> [(k & f & Hin & Hf & ->)|(_ & _ & ->)]]; [|done].
      exfalso. rewrite Forall_forall in Hall.
      destruct (Hall _ Hin) as [fn Hfn]. simpl in Hfn. congruence.
Qed.

(** ** [POST /graph/run] and [GET /graph/state/{run_id}] *)

Lemma run_graph_node_raises self run_id t_start t_end graph_id graph
    initial_state d (h : Heap) max_steps (n : nat) run_n self_n h_n current
    node_def before h1 e h2 :
  Engine.graphs self !! graph_id = Some graph →
  initial_bindings initial_state h = Some d →
  run_graph self run_id t_start t_end graph_id initial_state (Z.of_nat n) h
    = RunReturn run_n self_n h_n →
  Z.of_nat n < max_steps →
  RunRecord.current_node run_n = Some current →
  GraphDef.nodes graph !! current = Some node_def →
  dict_copy h_n (RunRecord.state run_n) = Some (before, h1) →
  NodeDef.func node_def (RunRecord.state run_n)
    (ToolRegistry.all (Engine.tools_registry self)) h1 = Raises e h2 →
  ∃ run,
    run_graph self run_id t_start t_end graph_id initial_state max_steps h
      = RunRaise e (store_run self run_id run) h2 ∧
    RunRecord.finished run = false ∧
    RunRecord.log run = RunRecord.log run_n.
Proof.
  intros Hreg Hbind Hr Hlt Hcur Hnode Hbefore Hfunc.
  destruct (run_graph_return_inv _ _ _ _ _ _ _ _ _ Hreg Hbind _ _ _ _ Hr)
    as (n' & c & Hn & Hc & Hle & -> & _ & ->).
  simpl in Hcur, Hbefore, Hfunc.
  pose proof (iterate_run _ _ _ _ _ Hn) as (Hs & _ & Hfin & _).
  apply loop_cond_None in Hc as [Hc|Hc]; [congruence|].
  simpl in Hs, Hfin.
  assert (loop_body graph (ToolRegistry.all (Engine.tools_registry self))
            current c = inl (e, with_heap c h2)) as Hb.
  { unfold loop_body. by rewrite Hnode, Hbefore, Hfunc. }
  exists (c_run c). split_and!; [|done|done].
  apply (run_graph_raise _ _ _ t_end _ _ _ _ _ Hreg Hbind max_steps n' c
           current e (with_heap c h2)); [done| |done].
  apply loop_cond_Some. split; [done|lia].
Qed.

Lemma run_graph_missing_node self run_id t_start t_end graph_id graph
    initial_state d (h : Heap) max_steps (n : nat) run_n self_n h_n current :
  Engine.graphs self !! graph_id = Some graph →
  initial_bindings initial_state h = Some d →
  run_graph self run_id t_start t_end graph_id initial_state (Z.of_nat n) h
    = RunReturn run_n self_n h_n →
  Z.of_nat n < max_steps →
  RunRecord.current_node run_n = Some current →
  GraphDef.nodes graph !! current = None →
  ∃ run,
    run_graph self run_id t_start t_end graph_id initial_state max_steps h
      = RunRaise (KeyError current) (store_run self run_id run) h_n ∧
    RunRecord.finished run = false ∧
    RunRecord.log run = RunRecord.log run_n.
Proof.
  intros Hreg Hbind Hr Hlt Hcur Hnode.
  destruct (run_graph_return_inv _ _ _ _ _ _ _ _ _ Hreg Hbind _ _ _ _ Hr)
    as (n' & c & Hn & Hc & Hle & -> & _ & ->).
  simpl in Hcur.
  pose proof (iterate_run _ _ _ _ _ Hn) as (Hs & _ & Hfin & _).
  apply loop_cond_None in Hc as [Hc|Hc]; [congruence|].
  simpl in Hs, Hfin.
  assert (loop_body graph (ToolRegistry.all (Engine.tools_registry self))
            current c = inl (KeyError current, c)) as Hb.
  { unfold loop_body. by rewrite Hnode. }
  exists (c_run c). split_and!; [|done|done].
  apply (run_graph_raise _ _ _ t_end _ _ _ _ _ Hreg Hbind max_steps n' c
           current (KeyError current) c); [done| |done].
  apply loop_cond_Some. split; [done|lia].
Qed.

(** X12: what [POST /graph/run] answers with 404 [Graph not found].  It does
    so for a graph id that is not registered, leaving engine and heap as
    they were.  It also does so for a registered graph, because the route
    catches every [KeyError]: when, after [n < 100] completed steps, the
    current node is not a node of the graph, and when the logic of the
    current node raises a [KeyError] of its own.  The aborted run then
    stays in the run table, not finished, with the log of the [n] steps.
    Any other exception of node logic is not caught. *)
Theorem run_endpoint_not_found engine run_id t_start t_end payload
    (h : Heap) :
  let graph_id := Main.GraphRunRequest.graph_id payload in
  let initial_state := Some (Main.GraphRunRequest.initial_state payload) in
  let not_found :=
    Main.HttpError
      {| Main.status_code := 404; Main.detail := "Graph not found" |} in
  let r := Main.run_graph engine run_id t_start t_end payload h in
  (Engine.graphs engine !! graph_id = None → r = (not_found, engine, h)) ∧
  (∀ graph d (n : nat) run_n self_n h_n current,
     Engine.graphs engine !! graph_id = Some graph →
     initial_bindings initial_state h = Some d →
     run_graph engine run_id t_start t_end graph_id initial_state
       (Z.of_nat n) h = RunReturn run_n self_n h_n →
     Z.of_nat n < 100 →
     RunRecord.current_node run_n = Some current →
     (GraphDef.nodes graph !! current = None →
      ∃ run,
        r = (not_found, store_run engine run_id run, h_n) ∧
        RunRecord.finished run = false ∧
        RunRecord.log run = RunRecord.log run_n) ∧
     (∀ node_def before h1 e h2,
        GraphDef.nodes graph !! current = Some node_def →
        dict_copy h_n (RunRecord.state run_n) = Some (before, h1) →
        NodeDef.func node_def (RunRecord.state run_n)
          (ToolRegistry.all (Engine.tools_registry engine)) h1
          = Raises e h2 →
        ∃ run,
          r = (match e with
               | KeyError _ => not_found
               | _ => Main.Uncaught e
               end, store_run engine run_id run, h2) ∧
          RunRecord.finished run = false ∧
          RunRecord.log run = RunRecord.log run_n)).
Proof.
  intros graph_id initial_state not_found r. split.
  - intros Hnone. unfold r, Main.run_graph, run_graph, run_graph_fuel.
    fold graph_id. by rewrite Hnone.
  - intros graph d n run_n self_n h_n current Hreg Hbind Hr Hlt Hcur. split.
    + intros Hnode.
      destruct (run_graph_missing_node _ _ _ _ _ _ _ _ _ max_steps_default
                  _ _ _ _ _ Hreg Hbind Hr Hlt Hcur Hnode)
        as (run & Hraise & Hfin & Hlog).
      exists run. split; [|done].
      unfold r, Main.run_graph. fold graph_id initial_state.
      by rewrite Hraise.
    + intros nd before h1 e h2 Hnode Hbefore Hfunc.
      destruct (run_graph_node_raises _ _ _ _ _ _ _ _ _ max_steps_default
                  _ _ _ _ _ _ _ _ _ _ Hreg Hbind Hr Hlt Hcur Hnode Hbefore
                  Hfunc) as (run & Hraise & Hfin & Hlog).
      exists run. split; [|done].
      unfold r, Main.run_graph. fold graph_id initial_state.
      rewrite Hraise. by destruct e.
Qed.

(** When the loop is entered with a dict as the run's state, the state is a
    dict after every completed step. *)
Lemma iterate_state_dict graph tools n c c' :
  iterate graph tools n c = Some c' →
  is_Some (get_dict (c_heap c) (RunRecord.state (c_run c))) →
  is_Some (get_dict (c_heap c') (RunRecord.state (c_run c'))).
Proof.
  destruct n as [|n].
  - by intros [= <-].
  - intros (current & c1 & _ & _ & Hb)%iterate_snoc _.
    apply loop_body_inr in Hb
      as (nd & before & h1 & ov & h2 & after & h3 & _ & _ & _ & Hafter & ->).
    apply dict_copy_Some in Hafter as (d & Hd & _ & ->). simpl.
    exists d. apply get_dict_Some. rewrite lookup_insert_ne; [done|].
    intros E. rewrite <- E, fresh_loc_None in Hd. done.
Qed.

(** X13: when [POST /graph/run] answers with a run, the engine's call
    returned a run, now in the run table under the new run id, and the
    response carries that id, the run's log, of at most 100 entries numbered
    from 0, and as [final_state] a new dict that holds the bindings of the
    run's state; the heap is otherwise as the engine left it.  [GET
    /graph/state] for that id then answers, whenever the run's state is a
    dict, with a new dict of its own that holds the bindings the state has
    at that time, with the same log, the graph id of the request and
    [finished = true]; its [current_node] is null unless the log has 100
    entries. *)
Theorem run_endpoint_success engine run_id t_start t_end payload (h : Heap)
    resp engine' h' :
  Main.run_graph engine run_id t_start t_end payload h
    = (Main.Ok resp, engine', h') →
  ∃ run h_run d,
    run_graph engine run_id t_start t_end
      (Main.GraphRunRequest.graph_id payload)
      (Some (Main.GraphRunRequest.initial_state payload)) 100 h
      = RunReturn run engine' h_run ∧
    Engine.runs engine' !! run_id = Some run ∧
    Main.GraphRunResponse.run_id resp = run_id ∧
    Main.GraphRunResponse.log resp = RunRecord.log run ∧
    (length (RunRecord.log run) ≤ 100)%nat ∧
    LogEntry.step <$> RunRecord.log run
      = seqZ 0 (Z.of_nat (length (RunRecord.log run))) ∧
    get_dict h_run (RunRecord.state run) = Some d ∧
    h_run !! Main.GraphRunResponse.final_state resp = None ∧
    h' = <[Main.GraphRunResponse.final_state resp := ODict d]> h_run ∧
    ∀ (h_get : Heap) d_get,
      get_dict h_get (RunRecord.state run) = Some d_get →
      ∃ state current_node,
        Main.get_run_state engine' run_id h_get
          = (Main.Ok
               {| Main.RunStateResponse.run_id := run_id;
                  Main.RunStateResponse.graph_id :=
                    Main.GraphRunRequest.graph_id payload;
                  Main.RunStateResponse.state := state;
                  Main.RunStateResponse.current_node := current_node;
                  Main.RunStateResponse.finished := true;
                  Main.RunStateResponse.log := RunRecord.log run |},
             <[state := ODict d_get]> h_get) ∧
        h_get !! state = None ∧
        (current_node = None ∨ length (RunRecord.log run) = 100%nat).
Proof.
  unfold Main.run_graph.
  destruct (run_graph _ _ _ _ _ _ _ _) as [run self' h1|e self' h1|] eqn:Hr;
    [|by destruct e|done].
  destruct (dict_copy h1 (RunRecord.state run)) as [[l h2]|] eqn:Hcopy;
    [|done].
  intros [= <- <- <-]. simpl.
  apply dict_copy_Some in Hcopy as (d & Hd & -> & ->).
  destruct (run_graph_return_registered _ _ _ _ _ _ _ _ _ _ _ Hr)
    as (graph & d0 & Hreg & Hbind).
  destruct (run_graph_return_inv _ _ _ _ _ _ _ _ _ Hreg Hbind _ _ _ _ Hr)
    as (n & c & Hn & Hc & Hle & -> & -> & ->).
  destruct (iterate_finished_at _ _ _ _ _ Hn) as (_ & Hid & Hgid & _).
  destruct (iterate_run _ _ _ _ _ Hn)
    as (Hs & Hst & _ & es & Hlog & Hlen & Hsteps).
  simpl in Hs, Hst, Hlog, Hid, Hgid. unfold max_steps_default in *.
  exists (RunRecord.finish (c_run c) t_end), (c_heap c), d.
  split_and!.
  - done.
  - apply store_run_lookup.
  - done.
  - done.
  - simpl. rewrite Hlog, Hlen. lia.
  - simpl. by rewrite Hlog, Hlen.
  - by apply get_dict_Some.
  - apply fresh_loc_None.
  - done.
  - intros h_get d_get Hget.
    exists (fresh_loc h_get), (RunRecord.current_node (c_run c)).
    split_and!.
    + unfold Main.get_run_state, get_run. rewrite store_run_lookup.
      unfold dict_copy, alloc. rewrite Hget. simpl.
      by rewrite Hid, Hgid.
    + apply fresh_loc_None.
    + simpl. rewrite Hlog, Hlen.
      apply loop_cond_None in Hc as [?|?]; [by left|right; lia].
Qed.

Lemma run_endpoint_success_witness :
  ∃ resp engine' h',
    Main.run_graph append_engine "r" 0%Q 1%Q
      {| Main.GraphRunRequest.graph_id := "append";
         Main.GraphRunRequest.initial_state := 2%nat |} caller_heap
    = (Main.Ok resp, engine', h') ∧
    Main.GraphRunResponse.run_id resp = "r" ∧
    get_dict h' (Main.GraphRunResponse.final_state resp)
      = Some {[ "items" := VRef 1%nat ]} ∧
    Main.GraphRunResponse.final_state resp ≠ 3%nat.
Proof.
  eexists _, _, _. split; [vm_compute; reflexivity|].
  edestruct run_endpoint_success
    with (engine := append_engine) (run_id := "r") (t_start := 0%Q)
         (t_end := 1%Q)
         (payload := {| Main.GraphRunRequest.graph_id := "append";
                        Main.GraphRunRequest.initial_state := 2%nat |})
         (h := caller_heap)
    as (run & h_run & d & _ & _ & Hid & _).
  - vm_compute; reflexivity.
  - split; [exact Hid|]. split; [vm_compute; reflexivity|done].
Defined.

Lemma run_endpoint_not_found_witness :
  ∃ run h_n,
    Engine.graphs (Engine.add_graph empty_engine stray_graph) !! "stray"
      = Some stray_graph ∧
    Main.run_graph (Engine.add_graph empty_engine stray_graph) "r" 0%Q 1%Q
      {| Main.GraphRunRequest.graph_id := "stray";
         Main.GraphRunRequest.initial_state := 1%nat |}
      {[ 1%nat := ODict ∅ ]}
    = (Main.HttpError
         {| Main.status_code := 404; Main.detail := "Graph not found" |},
       store_run (Engine.add_graph empty_engine stray_graph) "r" run, h_n) ∧
    RunRecord.finished run = false.
Proof.
  pose proof (proj2 (run_endpoint_not_found
                       (Engine.add_graph empty_engine stray_graph) "r" 0%Q
                       1%Q
                       {| Main.GraphRunRequest.graph_id := "stray";
                          Main.GraphRunRequest.initial_state := 1%nat |}
                       {[ 1%nat := ODict ∅ ]})) as H.
  edestruct (H stray_graph ∅ 1%nat) as [Hmissing _].
  - reflexivity.
  - reflexivity.
  - vm_compute; reflexivity.
  - lia.
  - reflexivity.
  - destruct Hmissing as (run & Hr & Hfin & _); [reflexivity|].
    exists run. eexists. split; [reflexivity|]. split; [exact Hr|exact Hfin].
Defined.

(** * The text tools *)

(** ** Strings *)

Lemma append_nil_l (t : string) : "" +:+ t = t.
Proof. reflexivity. Qed.

Lemma append_cons (c : ascii) (s t : string) :
  String c s +:+ t = String c (s +:+ t).
Proof. reflexivity. Qed.

Lemma append_nil_r (s : string) : s +:+ "" = s.
Proof.
  induction s as [|c s IH]; [done|]. by rewrite append_cons, IH.
Qed.

Lemma append_assoc (s t u : string) : (s +:+ t) +:+ u = s +:+ t +:+ u.
Proof.
  induction s as [|c s IH]; [done|]. by rewrite !append_cons, IH.
Qed.

Lemma length_append (s t : string) :
  String.length (s +:+ t) = (String.length s + String.length t)%nat.
Proof.
  induction s as [|c s IH]; [done|]. rewrite append_cons. simpl. by rewrite IH.
Qed.

Lemma prefix_spec (p s : string) :
  String.prefix p s = true ↔ ∃ post, s = p +:+ post.
Proof.
  revert s. induction p as [|a p IH]; intros s.
  - split; [|by destruct s]. intros _. by exists s.
  - destruct s as [|b s]; simpl.
    + split; [done|]. by intros (post & [=]).
    + destruct (ascii_dec a b) as [->|Hne].
      * split.
        -- intros (post & ->)%IH. by exists post.
        -- intros (post & [= ->]). apply IH. by exists post.
      * split; [done|]. intros (post & [= -> _]). done.
Qed.

Lemma contains_nil (sub : string) :
  Workflows.contains sub "" = String.prefix sub "".
Proof.
  change (Workflows.contains sub "")
    with (if String.prefix sub "" then true else false).
  by destruct (String.prefix sub "").
Qed.

Lemma contains_cons (sub : string) (c : ascii) (s : string) :
  Workflows.contains sub (String c s)
    = if String.prefix sub (String c s) then true
      else Workflows.contains sub s.
Proof. reflexivity. Qed.

(** [sub in s] holds when [sub] occurs in [s] as a contiguous part. *)
Lemma contains_spec (sub s : string) :
  Workflows.contains sub s = true ↔ ∃ pre post, s = pre +:+ sub +:+ post.
Proof.
  induction s as [|c s IH]; [rewrite contains_nil|rewrite contains_cons].
  - destruct (String.prefix sub "") eqn:Hp.
    + split; [|done]. intros _. apply prefix_spec in Hp as (post & ->).
      by exists "", post.
    + split; [done|]. intros (pre & post & Hs).
      destruct pre as [|? ?]; [|done]. rewrite append_nil_l in Hs.
      assert (String.prefix sub "" = true) as Hp'
        by (apply prefix_spec; eauto). congruence.
  - destruct (String.prefix sub (String c s)) eqn:Hp.
    + split; [|done]. intros _. apply prefix_spec in Hp as (post & ->).
      by exists "", post.
    + split.
      * intros (pre & post & ->)%IH. by exists (String c pre), post.
      * intros (pre & post & Hs). destruct pre as [|c' pre].
        -- rewrite append_nil_l in Hs.
           assert (String.prefix sub (String c s) = true) as Hp'
             by (apply prefix_spec; eauto). congruence.
        -- rewrite append_cons in Hs. injection Hs as -> ->.
           apply IH. eauto.
Qed.

Lemma contains_append (sub pre s post : string) :
  Workflows.contains sub s = true →
  Workflows.contains sub (pre +:+ s +:+ post) = true.
Proof.
  intros (pre' & post' & ->)%contains_spec. apply contains_spec.
  exists (pre +:+ pre'), (post' +:+ post). by rewrite !append_assoc.
Qed.

(** ** [tool_detect_issues] *)

(** X14: [tool_detect_issues] reports in [issue_count] the length of
    [issues], between 0 and 4; the issues are taken, in this order, from the
    four fixed messages; and there is none exactly when the code contains
    none of [TODO], [print(] and [import *] and has at most 2000
    characters. *)
Theorem detect_issues_count (code : string) :
  let r := Workflows.tool_detect_issues code in
  Workflows.issue_count r = Z.of_nat (length (Workflows.issues r)) ∧
  0 ≤ Workflows.issue_count r ≤ 4 ∧
  Workflows.issues r `sublist_of`
    [Workflows.todo_issue; Workflows.print_issue; Workflows.long_issue;
     Workflows.import_issue] ∧
  (Workflows.issues r = [] ↔
   Workflows.contains "TODO" code = false ∧
   Workflows.contains "print(" code = false ∧
   Z.of_nat (String.length code) ≤ 2000 ∧
   Workflows.contains "import *" code = false).
Proof.
  unfold Workflows.tool_detect_issues.
  destruct (Z.ltb_spec 2000 (Z.of_nat (String.length code))) as [Hlen|Hlen];
    destruct (Workflows.contains "TODO" code);
    destruct (Workflows.contains "print(" code);
    destruct (Workflows.contains "import *" code); simpl.
  all: split; [done|]. 
  all: split; [lia|].
  all: split;
    [repeat first [apply sublist_nil | apply sublist_skip
                  | apply sublist_cons]|].
  all: split; [try done|intros (? & ? & ? & ?); try done; try lia].
Qed.

(** X15: text around a piece of code never hides its issues: every issue
    that [tool_detect_issues] reports for [code] it also reports, in the
    same order, for [pre + code + post], and the count does not go down. *)
Theorem detect_issues_monotone (pre code post : string) :
  let small := Workflows.tool_detect_issues code in
  let big := Workflows.tool_detect_issues (pre +:+ code +:+ post) in
  Workflows.issues small `sublist_of` Workflows.issues big ∧
  Workflows.issue_count small ≤ Workflows.issue_count big.
Proof.
  intros small big.
  assert (Workflows.issues small `sublist_of` Workflows.issues big) as Hsub.
  { unfold small, big, Workflows.tool_detect_issues.
    pose proof (contains_append "TODO" pre code post) as H1.
    pose proof (contains_append "print(" pre code post) as H2.
    pose proof (contains_append "import *" pre code post) as H3.
    assert (String.length code ≤ String.length (pre +:+ code +:+ post))%nat
      as Hlen by (rewrite !length_append; lia).
    destruct (Workflows.contains "TODO" code);
      [rewrite H1 by done
      |destruct (Workflows.contains "TODO" (pre +:+ code +:+ post))];
    (destruct (Workflows.contains "print(" code);
      [rewrite H2 by done
      |destruct (Workflows.contains "print(" (pre +:+ code +:+ post))]);
    (destruct (Workflows.contains "import *" code);
      [rewrite H3 by done
      |destruct (Workflows.contains "import *" (pre +:+ code +:+ post))]);
    destruct (Z.ltb_spec 2000 (Z.of_nat (String.length code)));
    destruct (Z.ltb_spec 2000
                (Z.of_nat (String.length (pre +:+ code +:+ post))));
    try lia; simpl;
    repeat first [apply sublist_nil | apply sublist_skip
                 | apply sublist_cons]. }
  split; [done|].
  apply sublist_length in Hsub.
  change (Workflows.issue_count small)
    with (Z.of_nat (length (Workflows.issues small))).
  change (Workflows.issue_count big)
    with (Z.of_nat (length (Workflows.issues big))).
  lia.
Qed.

(** ** Parts of a string *)

Lemma chars_append (s t : string) :
  String.list_ascii_of_string (s +:+ t)
    = String.list_ascii_of_string s ++ String.list_ascii_of_string t.
Proof.
  induction s as [|c s IH]; [done|]. rewrite append_cons. simpl. by rewrite IH.
Qed.

Lemma chars_part (P : ascii → Prop) (pre x post : string) :
  Forall P (String.list_ascii_of_string (pre +:+ x +:+ post)) →
  Forall P (String.list_ascii_of_string x).
Proof.
  rewrite !chars_append, !Forall_app. tauto.
Qed.

Lemma lstrip_part (s : string) : ∃ pre, s = pre +:+ Workflows.lstrip s.
Proof.
  induction s as [|c s (pre & IH)]; simpl.
  - by exists "".
  - destruct (Workflows.is_space c).
    + exists (String c pre). by rewrite append_cons, <- IH.
    + by exists "".
Qed.

Lemma rstrip_part (s : string) : ∃ post, s = Workflows.rstrip s +:+ post.
Proof.
  induction s as [|c s (post & IH)]; simpl.
  - by exists "".
  - destruct (Workflows.rstrip s) as [|a r].
    + destruct (Workflows.is_space c).
      * exists (String c s). done.
      * exists post. rewrite append_cons. by rewrite <- IH.
    + exists post. rewrite append_cons. by rewrite <- IH.
Qed.

Lemma strip_part (s : string) :
  ∃ pre post, s = pre +:+ Workflows.strip s +:+ post.
Proof.
  destruct (lstrip_part s) as (pre & Hpre).
  destruct (rstrip_part (Workflows.lstrip s)) as (post & Hpost).
  exists pre, post. unfold Workflows.strip. by rewrite <- Hpost.
Qed.

Lemma drop_chars_part (n : nat) (s : string) :
  ∃ pre, s = pre +:+ Workflows.drop_chars n s.
Proof.
  revert s. induction n as [|n IH]; intros s; simpl.
  - by exists "".
  - destruct s as [|c s]; [by exists ""|].
    destruct (IH s) as (pre & Hpre). exists (String c pre).
    by rewrite append_cons, <- Hpre.
Qed.

Lemma before_part (sep : ascii) (s : string) :
  ∃ post, s = Workflows.before sep s +:+ post.
Proof.
  induction s as [|c s (post & IH)]; simpl.
  - by exists "".
  - destruct (Ascii.eqb c sep).
    + by exists (String c s).
    + exists post. by rewrite append_cons, <- IH.
Qed.

Lemma before_chars (sep : ascii) (s : string) :
  Forall (λ c, c ≠ sep) (String.list_ascii_of_string (Workflows.before sep s)).
Proof.
  induction s as [|c s IH]; simpl; [constructor|].
  destruct (Ascii.eqb_spec c sep); simpl; [constructor|].
  by constructor.
Qed.

(** ** [strip] twice *)

Lemma rstrip_cons (c : ascii) (s : string) :
  Workflows.is_space c = false →
  Workflows.rstrip (String c s) = String c (Workflows.rstrip s).
Proof.
  intros Hc. simpl. rewrite Hc. by destruct (Workflows.rstrip s).
Qed.

Lemma rstrip_rstrip (s : string) :
  Workflows.rstrip (Workflows.rstrip s) = Workflows.rstrip s.
Proof.
  induction s as [|c s IH]; [done|]. simpl.
  destruct (Workflows.rstrip s) as [|a r] eqn:Hr.
  - destruct (Workflows.is_space c) eqn:Hc; [done|]. simpl. by rewrite Hc.
  - change (Workflows.rstrip (String c (String a r)))
      with (match Workflows.rstrip (String a r) with
            | EmptyString =>
                if Workflows.is_space c then "" else String c ""
            | r' => String c r'
            end).
    by rewrite IH.
Qed.

Lemma lstrip_head (s : string) :
  Workflows.lstrip s = "" ∨
  ∃ c r, Workflows.lstrip s = String c r ∧ Workflows.is_space c = false.
Proof.
  induction s as [|c s IH]; simpl; [by left|].
  destruct (Workflows.is_space c) eqn:Hc; [done|]. right. eauto.
Qed.

Lemma strip_strip (s : string) :
  Workflows.strip (Workflows.strip s) = Workflows.strip s.
Proof.
  unfold Workflows.strip.
  destruct (lstrip_head s) as [->|(c & r & -> & Hc)]; [done|].
  rewrite (rstrip_cons c r Hc). simpl. rewrite Hc.
  change (match Workflows.rstrip (Workflows.rstrip r) with
          | EmptyString => if Workflows.is_space c then "" else String c ""
          | String a s0 => String c (String a s0)
          end)
    with (Workflows.rstrip (String c (Workflows.rstrip r))).
  by rewrite (rstrip_cons c _ Hc), rstrip_rstrip.
Qed.

(** ** [splitlines] *)

Lemma splitlines_cons (c : ascii) (s : string) :
  Workflows.splitlines (String c s) =
  if Workflows.is_linebreak c then
    match c, s with
    | "013"%char, String "010"%char s'' => "" :: Workflows.splitlines s''
    | _, _ => "" :: Workflows.splitlines s
    end
  else
    match Workflows.splitlines s with
    | [] => [String c ""]
    | line :: lines => String c line :: lines
    end.
Proof. reflexivity. Qed.

Lemma splitlines_break (c : ascii) (s : string) :
  Workflows.is_linebreak c = true →
  ∃ skipped rest,
    String c s = skipped +:+ rest ∧
    Workflows.splitlines (String c s) = "" :: Workflows.splitlines rest ∧
    (String.length rest ≤ String.length s)%nat.
Proof.
  intros Hc. rewrite splitlines_cons, Hc.
  destruct (decide (c = "013"%char)) as [->|Hcr].
  - destruct s as [|d s].
    + exists (String "013"%char ""), "". done.
    + destruct (decide (d = "010"%char)) as [->|Hlf].
      * exists (String "013"%char (String "010"%char "")), s.
        split_and!; [done|done|simpl; lia].
      * exists (String "013"%char ""), (String d s).
        split_and!; [done| |done].
        by destruct d as [[] [] [] [] [] [] [] []].
  - exists (String c ""), s. split_and!; [done| |done].
    by destruct c as [[] [] [] [] [] [] [] []].
Qed.

Lemma splitlines_head (s : string) (line : string) lines :
  Workflows.splitlines s = line :: lines → ∃ post, s = line +:+ post.
Proof.
  revert line lines. induction s as [|c s IH]; intros line lines; [done|].
  destruct (Workflows.is_linebreak c) eqn:Hc.
  - destruct (splitlines_break c s Hc) as (skipped & rest & _ & -> & _).
    intros [= <- _]. by exists (String c s).
  - rewrite splitlines_cons, Hc.
    destruct (Workflows.splitlines s) as [|l ls] eqn:Hsplit.
    + intros [= <- _]. by exists s.
    + intros [= <- _]. destruct (IH l ls eq_refl) as (post & Hs).
      exists post. by rewrite append_cons, <- Hs.
Qed.

Lemma splitlines_lines (s : string) (line : string) :
  line ∈ Workflows.splitlines s →
  (∃ pre post, s = pre +:+ line +:+ post) ∧
  Forall (λ c, Workflows.is_linebreak c = false) (String.list_ascii_of_string line).
Proof.
  remember (String.length s) as n eqn:Hn. revert s line Hn.
  induction n as [n IH] using lt_wf_ind. intros s line -> Hin.
  destruct s as [|c s]; [by apply elem_of_nil in Hin|].
  destruct (Workflows.is_linebreak c) eqn:Hc.
  - destruct (splitlines_break c s Hc) as (skipped & rest & Hs & Hsplit & Hlen).
    rewrite Hsplit in Hin. apply elem_of_cons in Hin as [->|Hin].
    + split; [|constructor]. by exists "", (String c s).
    + destruct (IH (String.length rest) ltac:(simpl; lia) rest line eq_refl
                  Hin) as [(pre & post & Hrest) Hchars].
      split; [|done]. exists (skipped +:+ pre), post.
      by rewrite Hs, Hrest, append_assoc.
  - rewrite splitlines_cons, Hc in Hin.
    destruct (Workflows.splitlines s) as [|l ls] eqn:Hsplit.
    + apply list_elem_of_singleton in Hin as ->.
      split; [|by repeat constructor].
      exists "", s. by rewrite append_nil_l.
    + apply elem_of_cons in Hin as [->|Hin].
      * destruct (IH (String.length s) ltac:(simpl; lia) s l eq_refl)
          as [_ Hchars]; [rewrite Hsplit; apply list_elem_of_here|].
        destruct (splitlines_head s l ls Hsplit) as (post & Hs).
        split; [|by constructor]. exists "", post.
        by rewrite append_nil_l, append_cons, <- Hs.
      * destruct (IH (String.length s) ltac:(simpl; lia) s line eq_refl)
          as [(pre & post & Hs) Hchars];
          [rewrite Hsplit; by apply list_elem_of_further|].
        split; [|done]. exists (String c pre), post.
        by rewrite append_cons, <- Hs.
Qed.

(** ** [tool_extract_functions] *)

Lemma function_name_Some (line name : string) :
  Workflows.function_name line = Some name →
  String.prefix "def " (Workflows.strip line) = true ∧
  name = Workflows.strip
           (Workflows.before "("%char
              (Workflows.drop_chars 4 (Workflows.strip line))) ∧
  name ≠ "".
Proof.
  unfold Workflows.function_name.
  destruct (String.prefix "def " (Workflows.strip line)); [|done].
  simpl String.length.
  destruct (Workflows.strip (Workflows.before "(" _)) as [|c r] eqn:Hname;
    [done|].
  intros [= <-]. done.
Qed.

Lemma function_name_part (line name : string) :
  Workflows.function_name line = Some name →
  ∃ pre post, line = pre +:+ name +:+ post.
Proof.
  intros (_ & -> & _)%function_name_Some.
  destruct (strip_part line) as (pre1 & post1 & H1).
  destruct (drop_chars_part 4 (Workflows.strip line)) as (pre2 & H2).
  destruct (before_part "("%char
              (Workflows.drop_chars 4 (Workflows.strip line)))
    as (post3 & H3).
  destruct (strip_part
              (Workflows.before "("%char
                 (Workflows.drop_chars 4 (Workflows.strip line))))
    as (pre4 & post4 & H4).
  set (name := Workflows.strip _) in *.
  exists (pre1 +:+ pre2 +:+ pre4), (post4 +:+ post3 +:+ post1).
  rewrite H1 at 1. rewrite H2 at 1. rewrite H3 at 1. rewrite H4 at 1.
  by rewrite !append_assoc.
Qed.

Lemma omap_length_le {A B} (f : A → option B) (l : list A) :
  (length (omap f l) ≤ length l)%nat.
Proof.
  induction l as [|x l IH]; [done|].
  change (omap f (x :: l))
    with (match f x with Some y => y :: omap f l | None => omap f l end).
  destruct (f x); simpl; lia.
Qed.

(** X16: every name that [tool_extract_functions] returns is not empty, is
    its own [strip] (no white space at either end), and contains neither an
    opening parenthesis nor a line break; and there are at most as many
    names as the code has lines. *)
Theorem extract_functions_names (code : string) :
  let names := Workflows.functions (Workflows.tool_extract_functions code) in
  (length names ≤ length (Workflows.splitlines code))%nat ∧
  ∀ name, name ∈ names →
    name ≠ "" ∧
    Workflows.strip name = name ∧
    Forall (λ c, c ≠ "("%char ∧ Workflows.is_linebreak c = false)
      (String.list_ascii_of_string name).
Proof.
  simpl. split; [apply omap_length_le|].
  intros name (line & Hline & Hname)%list_elem_of_omap.
  pose proof (function_name_Some _ _ Hname) as (_ & Heq & Hne).
  split_and!; [done|rewrite Heq; apply strip_strip|].
  apply Forall_and. split.
  - rewrite Heq.
    destruct (strip_part
                (Workflows.before "("%char
                   (Workflows.drop_chars 4 (Workflows.strip line))))
      as (pre & post & Hpart).
    eapply chars_part. rewrite <- Hpart. apply before_chars.
  - destruct (function_name_part _ _ Hname) as (pre & post & Hpart).
    apply splitlines_lines in Hline as [_ Hchars].
    eapply chars_part. by rewrite <- Hpart.
Qed.

(** X17: [tool_extract_functions] finds nothing in code that does not
    contain [def ] (with the space). *)
Theorem extract_functions_needs_def (code : string) :
  Workflows.contains "def " code = false →
  Workflows.functions (Workflows.tool_extract_functions code) = [].
Proof.
  intros Hno. simpl.
  destruct (omap Workflows.function_name (Workflows.splitlines code))
    as [|name names] eqn:Hnames; [done|].
  assert (name ∈ omap Workflows.function_name (Workflows.splitlines code))
    as (line & Hline & Hname)%list_elem_of_omap
    by (rewrite Hnames; apply list_elem_of_here).
  apply function_name_Some in Hname as (Hdef & _ & _).
  apply prefix_spec in Hdef as (rest & Hdef).
  destruct (strip_part line) as (pre1 & post1 & H1).
  apply splitlines_lines in Hline as [(pre2 & post2 & H2) _].
  assert (Workflows.contains "def " code = true) as Hyes; [|congruence].
  apply contains_spec.
  exists (pre2 +:+ pre1), (rest +:+ post1 +:+ post2).
  rewrite H2, H1, Hdef. by rewrite !append_assoc.
Qed.

Lemma extract_functions_needs_def_witness :
  Workflows.functions
    (Workflows.tool_extract_functions "print(undefined)") = [].
Proof.
  apply (extract_functions_needs_def "print(undefined)"). reflexivity.
Defined.

Lemma not_space_not_linebreak (c : ascii) :
  Workflows.is_space c = false → Workflows.is_linebreak c = false.
Proof. by destruct c as [[] [] [] [] [] [] [] []]. Qed.

Lemma splitlines_single (s : string) :
  s ≠ "" →
  Forall (λ c, Workflows.is_linebreak c = false)
    (String.list_ascii_of_string s) →
  Workflows.splitlines s = [s].
Proof.
  induction s as [|c s IH]; [done|]. intros _ [Hc Hs]%Forall_cons.
  rewrite splitlines_cons, Hc.
  destruct s as [|d s]; [done|]. by rewrite IH.
Qed.

Lemma lstrip_spaces (indent x : string) :
  Forall (λ c, Workflows.is_space c = true)
    (String.list_ascii_of_string indent) →
  Workflows.lstrip (indent +:+ x) = Workflows.lstrip x.
Proof.
  induction indent as [|c indent IH]; [done|].
  intros [Hc Hrest]%Forall_cons. rewrite append_cons. simpl.
  rewrite Hc. by apply IH.
Qed.

Lemma rstrip_app (a b : string) (c : ascii) :
  Workflows.is_space c = false →
  Workflows.rstrip (a +:+ String c b) = a +:+ String c (Workflows.rstrip b).
Proof.
  intros Hc. induction a as [|x a IH].
  - rewrite !append_nil_l. by apply rstrip_cons.
  - rewrite !append_cons.
    change (Workflows.rstrip (String x (a +:+ String c b)))
      with (match Workflows.rstrip (a +:+ String c b) with
            | EmptyString =>
                if Workflows.is_space x then "" else String x ""
            | r => String x r
            end).
    rewrite IH. by destruct a.
Qed.

Lemma before_app (sep : ascii) (name rest : string) :
  Forall (λ c, c ≠ sep) (String.list_ascii_of_string name) →
  Workflows.before sep (name +:+ String sep rest) = name.
Proof.
  induction name as [|c name IH].
  - intros _. rewrite append_nil_l. simpl. by rewrite Ascii.eqb_refl.
  - intros [Hc Hrest]%Forall_cons. rewrite append_cons. simpl.
    destruct (Ascii.eqb_spec c sep); [done|]. by rewrite IH.
Qed.

Lemma strip_no_space (name : string) :
  Forall (λ c, Workflows.is_space c = false)
    (String.list_ascii_of_string name) →
  Workflows.strip name = name.
Proof.
  intros Hname. unfold Workflows.strip.
  assert (Workflows.lstrip name = name) as ->.
  { destruct name as [|c name]; [done|].
    apply Forall_cons in Hname as [Hc _]. simpl. by rewrite Hc. }
  induction name as [|c name IH]; [done|].
  apply Forall_cons in Hname as [Hc Hrest].
  rewrite rstrip_cons by done. by rewrite IH.
Qed.

(** X18: a line that defines a function gives back the function's name.
    For a one-line text made of an indentation of white space, [def ], a
    name without white space and parentheses, an opening parenthesis and
    any rest of the line, [tool_extract_functions] returns exactly that
    name. *)
Theorem extract_functions_def_line (indent name rest : string) :
  Forall (λ c, Workflows.is_space c = true ∧ Workflows.is_linebreak c = false)
    (String.list_ascii_of_string indent) →
  name ≠ "" →
  Forall (λ c, Workflows.is_space c = false ∧ c ≠ "("%char)
    (String.list_ascii_of_string name) →
  Forall (λ c, Workflows.is_linebreak c = false)
    (String.list_ascii_of_string rest) →
  Workflows.functions
    (Workflows.tool_extract_functions
       (indent +:+ "def " +:+ name +:+ "(" +:+ rest))
  = [name].
Proof.
  intros [Hindent_space Hindent_break]%Forall_and Hne
    [Hname_space Hname_paren]%Forall_and Hrest.
  set (line := indent +:+ "def " +:+ name +:+ "(" +:+ rest).
  assert (Workflows.splitlines line = [line]) as Hlines.
  { apply splitlines_single.
    - unfold line. destruct indent; done.
    - unfold line. rewrite !chars_append, !Forall_app.
      split_and!; [done|by repeat constructor| |by repeat constructor|done].
      eapply Forall_impl; [exact Hname_space|].
      intros c. apply not_space_not_linebreak. }
  assert (Workflows.strip line
          = "def " +:+ name +:+ String "("%char (Workflows.rstrip rest))
    as Hstrip.
  { unfold Workflows.strip, line. rewrite lstrip_spaces by done.
    change (Workflows.lstrip ("def " +:+ name +:+ "(" +:+ rest))
      with ("def " +:+ name +:+ "(" +:+ rest).
    change ("(" +:+ rest) with (String "("%char rest).
    rewrite <- append_assoc, rstrip_app by done.
    by rewrite append_assoc. }
  simpl. rewrite Hlines. simpl. unfold Workflows.function_name.
  rewrite Hstrip.
  assert (String.prefix "def "
            ("def " +:+ name +:+ String "("%char (Workflows.rstrip rest))
          = true) as -> by (apply prefix_spec; eauto).
  change (Workflows.drop_chars (String.length "def ")
            ("def " +:+ name +:+ String "("%char (Workflows.rstrip rest)))
    with (name +:+ String "("%char (Workflows.rstrip rest)).
  rewrite before_app by done. rewrite strip_no_space by done.
  by destruct name.
Qed.

Lemma extract_functions_def_line_witness :
  Workflows.functions
    (Workflows.tool_extract_functions
       ("    " +:+ "def " +:+ "node_extract" +:+ "(" +:+ "state, tools):"))
  = ["node_extract"].
Proof.
  apply (extract_functions_def_line "    " "node_extract" "state, tools):").
  - by repeat constructor.
  - done.
  - by repeat constructor.
  - by repeat constructor.
Defined.

(** * The code-review workflow *)

Section code_review.
Context (tool_extract_functions tool_check_complexity tool_detect_issues
         tool_suggest_improvements : ToolFn).
Context (node_extract node_check_complexity node_detect_issues
         node_suggest_improvements node_evaluate_quality : NodeFn).

Let register :=
  CodeReview.register_code_review_workflow tool_extract_functions
    tool_check_complexity tool_detect_issues tool_suggest_improvements
    node_extract node_check_complexity node_detect_issues
    node_suggest_improvements node_evaluate_quality.
Let graph :=
  CodeReview.graph node_extract node_check_complexity node_detect_issues
    node_suggest_improvements node_evaluate_quality.
Let names :=
  ["extract"; "check_complexity"; "detect_issues"; "suggest_improvements";
   "evaluate_quality"].

Lemma code_review_nodes k node_def :
  GraphDef.nodes graph !! k = Some node_def →
  NodeDef.name node_def = k ∧ k ∈ names ∧
  ∀ engine,
    NodeRegistry.nodes (Engine.node_registry (register engine).2) !! k
      = Some (NodeDef.func node_def).
Proof.
  unfold graph, CodeReview.graph, CodeReview.node_defs. simpl.
  rewrite !lookup_insert_Some, lookup_empty.
  intros [[<- <-]|[_ [[<- <-]|[_ [[<- <-]|[_ [[<- <-]|[_ [[<- <-]|[_ [=]]]]]]]]]]];
    (split; [done|]); (split; [unfold names; set_solver|]); intros engine;
    unfold register, CodeReview.register_code_review_workflow; simpl;
    by repeat first [rewrite lookup_insert_eq
                    | rewrite lookup_insert_ne by done].
Qed.

Lemma code_review_names k :
  k ∈ names →
  is_Some (GraphDef.nodes graph !! k) ∧
  ∀ engine,
    is_Some (NodeRegistry.nodes (Engine.node_registry (register engine).2)
               !! k).
Proof.
  unfold names. rewrite !elem_of_cons, elem_of_nil.
  intros [->|[->|[->|[->|[->|[]]]]]]; (split; [by eexists|]);
    intros engine;
    unfold register, CodeReview.register_code_review_workflow; simpl;
    repeat first [rewrite lookup_insert_eq
                 | rewrite lookup_insert_ne by done]; by eexists.
Qed.

Lemma code_review_edges k target :
  GraphDef.edges graph !! k = Some (Some target) → target ∈ names.
Proof.
  unfold graph, CodeReview.graph, CodeReview.edges. simpl.
  rewrite !lookup_insert_Some, lookup_empty.
  intros [[_ [= <-]]|[_ [[_ [= <-]]|[_ [[_ [= <-]]|[_ [[_ [= <-]]|[_ [[_ [=]]|[_ [=]]]]]]]]]]];
    unfold names; set_solver.
Qed.

(** X19: [register_code_review_workflow] returns the id [code_review] and
    leaves under it a well-formed graph of five nodes, each filed under its
    own name and carrying the function that the node registry now holds
    under that name; the static edges lead from [extract] through the five
    nodes in order and end after [evaluate_quality].  Other graphs and the
    runs are untouched, and registering a second time changes nothing.
    Afterwards [create_graph_from_spec] accepts every spec whose function
    names are among the five and whose start node is listed. *)
Theorem code_review_workflow_registered (engine : Engine.t) :
  let engine' := (register engine).2 in
  (register engine).1 = "code_review" ∧
  Engine.graphs engine' !! "code_review" = Some graph ∧
  well_formed graph ∧
  name_keyed graph ∧
  (∀ k, is_Some (GraphDef.nodes graph !! k) ↔ k ∈ names) ∧
  (∀ k node_def, GraphDef.nodes graph !! k = Some node_def →
     NodeRegistry.nodes (Engine.node_registry engine') !! k
       = Some (NodeDef.func node_def)) ∧
  GraphDef.edges_get graph <$> names
    = [Some "check_complexity"; Some "detect_issues";
       Some "suggest_improvements"; Some "evaluate_quality"; None] ∧
  (∀ g, g ≠ "code_review" →
     Engine.graphs engine' !! g = Engine.graphs engine !! g) ∧
  Engine.runs engine' = Engine.runs engine ∧
  (register engine').2 = engine' ∧
  (∀ graph_id name node_specs edges start_node,
     Forall (λ p, p.2 ∈ names) node_specs →
     start_node ∈ node_specs.*1 →
     ∃ g, create_graph_from_spec engine' graph_id name node_specs edges
            start_node = (Return g, Engine.add_graph engine' g)).
Proof.
  intros engine'. split_and!.
  - done.
  - apply lookup_insert_eq.
  - split.
    + by eexists.
    + intros k target Hk. apply code_review_names.
      by eapply code_review_edges.
  - intros k nd Hk. by apply code_review_nodes in Hk as [? _].
  - intros k. split.
    + intros [nd Hk]. by apply code_review_nodes in Hk as (_ & ? & _).
    + intros Hk. by apply code_review_names.
  - intros k nd Hk. apply code_review_nodes in Hk as (_ & _ & Hreg).
    apply Hreg.
  - reflexivity.
  - intros g Hg. unfold engine'. simpl. by rewrite lookup_insert_ne.
  - done.
  - unfold engine', register, CodeReview.register_code_review_workflow,
      Engine.add_graph, Engine.set_graphs, ToolRegistry.register,
      NodeRegistry.register. simpl. f_equal.
    + f_equal. apply map_eq. intros i.
      destruct (decide (i = "suggest_improvements")) as [->|];
        [by simplify_map_eq|].
      destruct (decide (i = "detect_issues")) as [->|];
        [by simplify_map_eq|].
      destruct (decide (i = "check_complexity")) as [->|];
        [by simplify_map_eq|].
      destruct (decide (i = "extract_functions")) as [->|];
        by simplify_map_eq.
    + f_equal. apply map_eq. intros i.
      destruct (decide (i = "evaluate_quality")) as [->|];
        [by simplify_map_eq|].
      destruct (decide (i = "suggest_improvements")) as [->|];
        [by simplify_map_eq|].
      destruct (decide (i = "detect_issues")) as [->|];
        [by simplify_map_eq|].
      destruct (decide (i = "check_complexity")) as [->|];
        [by simplify_map_eq|].
      destruct (decide (i = "extract")) as [->|]; by simplify_map_eq.
    + by rewrite insert_insert_eq.
  - intros graph_id name node_specs edges start_node Hall Hstart.
    assert (Forall (registered (Engine.node_registry engine')) node_specs)
      as Hreg.
    { eapply Forall_impl; [exact Hall|]. intros p Hp.
      by apply code_review_names. }
    pose proof (create_graph_from_spec_inv engine' graph_id name node_specs
                  edges start_node) as Hinv.
    destruct (create_graph_from_spec _ _ _ _ _ _) as [[g|e] self'].
    + destruct Hinv as (-> & _). eauto.
    + exfalso. destruct Hinv as [_ [(k & f & Hin & Hf & _)|(_ & Hnot & _)]].
      * rewrite Forall_forall in Hreg. destruct (Hreg _ Hin) as [fn Hfn].
        change ((k, f).2) with f in Hfn. by rewrite Hf in Hfn.
      * done.
Qed.

End code_review.

(** * Snapshots along the log *)


